(** * Streaming response normalisation of the English-learning backend

    A shallow embedding of [backend/qianwen.py], [backend/openai_client.py]
    and the [SSEGenerator] of [backend/main.py], with the properties of the
    response processors, the finish-reason mapper, the markdown sanitizer,
    the parameter builders and the SSE framer.

    Python values are modelled as follows.
    - A [str] is the list of its Unicode code points ([N]).
    - A decoded JSON document is a value of [Json.json]; a [dict] is an
      association list with unique keys, in insertion order.
    - An exception is a value of [exn]; code that may raise returns [exc].
    - A generator is run to the list of the responses it yields, together
      with the way it ended (exhausted or raised). *)

From Stdlib Require Import String Ascii DecimalString.
From Stdlib Require Import ZArith NArith List Bool Lia Sorted.
Import ListNotations.

(** ** Python built-ins on [str] *)

Module Py.

Definition char := N.
Definition str := list char.

(** A literal of the source; every literal of the sources used here is ASCII. *)
Definition lit (s : string) : str := map N_of_ascii (list_ascii_of_string s).

Definition nl : char := 10%N.
Definition quote : char := 34%N.

Fixpoint eqb (a b : str) : bool :=
  match a, b with
  | [], [] => true
  | x :: a', y :: b' => N.eqb x y && eqb a' b'
  | _, _ => false
  end.

(** [str.isspace] on one code point; also the class [\s] of [re] on [str]
    patterns. *)
Definition isspace (c : char) : bool :=
  (((0x09 <=? c) && (c <=? 0x0D)) || ((0x1C <=? c) && (c <=? 0x20))
   || (c =? 0x85) || (c =? 0xA0) || (c =? 0x1680)
   || ((0x2000 <=? c) && (c <=? 0x200A))
   || (c =? 0x2028) || (c =? 0x2029) || (c =? 0x202F) || (c =? 0x205F)
   || (c =? 0x3000))%N.

Fixpoint lstrip (s : str) : str :=
  match s with
  | c :: t => if isspace c then lstrip t else s
  | [] => []
  end.

Definition rstrip (s : str) : str := rev (lstrip (rev s)).

(** [s.strip()] *)
Definition strip (s : str) : str := rstrip (lstrip s).

(** [s.startswith(p)] *)
Fixpoint startswith (s p : str) {struct p} : bool :=
  match p, s with
  | [], _ => true
  | x :: p', y :: s' => N.eqb x y && startswith s' p'
  | _ :: _, [] => false
  end.

(** [s.find(sub)]: the lowest index of an occurrence, or -1. *)
Fixpoint find (s sub : str) : Z :=
  if startswith s sub then 0%Z
  else match s with
       | [] => (-1)%Z
       | _ :: t => let r := find t sub in
                   if (r <? 0)%Z then (-1)%Z else (r + 1)%Z
       end.

(** [s.rfind(sub)]: the highest index of an occurrence, or -1. *)
Fixpoint rfind (s sub : str) : Z :=
  match s with
  | [] => if startswith [] sub then 0%Z else (-1)%Z
  | _ :: t => let r := rfind t sub in
              if (0 <=? r)%Z then (r + 1)%Z
              else if startswith s sub then 0%Z else (-1)%Z
  end.

(** [sub in s] *)
Definition contains (s sub : str) : bool := (0 <=? find s sub)%Z.

(** [s[a:b]] and [s[a:]] for [0 <= a], the only way the sources slice. *)
Definition slice (s : str) (a b : Z) : str :=
  firstn (Z.to_nat (b - a)) (skipn (Z.to_nat a) s).
Definition slice_from (s : str) (a : Z) : str := skipn (Z.to_nat a) s.

(** [s.split(sep)] for a one-character separator. *)
Fixpoint split (sep : char) (s : str) : list str :=
  match s with
  | [] => [[]]
  | c :: t =>
      if N.eqb c sep then [] :: split sep t
      else match split sep t with
           | l :: ls => (c :: l) :: ls
           | [] => [[c]]
           end
  end.

(** [sep.join(parts)] *)
Fixpoint join (sep : str) (parts : list str) : str :=
  match parts with
  | [] => []
  | [p] => p
  | p :: ps => p ++ sep ++ join sep ps
  end.

(** [s.split(sep, 1)] when [sep in s]: the text before the first separator
    and the text after it; [None] when [sep] does not occur. *)
Fixpoint split1 (sep : char) (s : str) : option (str * str) :=
  match s with
  | [] => None
  | c :: t =>
      if N.eqb c sep then Some ([], t)
      else match split1 sep t with
           | Some (l, r) => Some (c :: l, r)
           | None => None
           end
  end.

(** [str.lower] on one code point.  It is [str.lower] on the ASCII letters
    and on U+212A (KELVIN SIGN), the only other code point whose lower case
    is ASCII; any other code point lowers to text that holds a non-ASCII
    code point and is left as it is.  A look-up of [s.lower()] in a table
    with ASCII keys is therefore decided as in Python. *)
Definition lower_char (c : char) : char :=
  (if (0x41 <=? c) && (c <=? 0x5A) then c + 32
   else if c =? 0x212A then 0x6B else c)%N.

Definition lower (s : str) : str := map lower_char s.

(** Truth value of a [str]. *)
Definition nonempty (s : str) : bool :=
  match s with [] => false | _ => true end.

End Py.

Import Py.

(** ** Exceptions *)

Inductive exn :=
  JSONDecodeError | TypeError | AttributeError | KeyError | IndexError.

Inductive exc (A : Type) :=
| Ok (a : A)
| Raise (e : exn).
Arguments Ok {A} a.
Arguments Raise {A} e.

Definition bind {A B} (m : exc A) (f : A -> exc B) : exc B :=
  match m with
  | Ok a => f a
  | Raise e => Raise e
  end.

Declare Scope exc_scope.
Delimit Scope exc_scope with exc.
Notation "x <- m ;; k" := (bind m (fun x => k))
  (at level 61, m at next level, right associativity) : exc_scope.
Notation "' p <- m ;; k" := (bind m (fun x => match x with p => k end))
  (at level 61, p pattern, m at next level, right associativity) : exc_scope.

(** ** [google.genai.types]: the parts of a response *)

Inductive FinishReason := STOP | MAX_TOKENS | SAFETY.

(** The table shared by both adapters:
    [{"stop": STOP, "length": MAX_TOKENS, "content_filter": SAFETY,
      "function_call": STOP, "tool_calls": STOP}]. *)
Definition mapping : list (str * FinishReason) :=
  [ (lit "stop", STOP);
    (lit "length", MAX_TOKENS);
    (lit "content_filter", SAFETY);
    (lit "function_call", STOP);
    (lit "tool_calls", STOP) ].

(** [d.get(k, default)] on a table with [str] keys. *)
Fixpoint dict_get {V} (d : list (str * V)) (k : str) (default : V) : V :=
  match d with
  | [] => default
  | (k', v) :: d' => if Py.eqb k' k then v else dict_get d' k default
  end.

Fixpoint dict_mem {V} (d : list (str * V)) (k : str) : bool :=
  match d with
  | [] => false
  | (k', _) :: d' => Py.eqb k' k || dict_mem d' k
  end.

(** ** The fragment of [re] used by the sanitizer *)

Module Re.

Inductive re :=
| Eps
| Chr (c : char)          (* a literal character *)
| Space                   (* \s *)
| Any                     (* [\s\S] *)
| Seq (a b : re)
| Opt (a : re)            (* a?  greedy *)
| Star (a : re)           (* a*  greedy *)
| LazyStar (a : re)       (* a*? *)
| Group (a : re)          (* ( a ), the one capturing group *)
| Eol.                    (* $ *)

(** The literal text [w]. *)
Fixpoint word (w : str) : re :=
  match w with
  | [] => Eps
  | c :: t => Seq (Chr c) (word t)
  end.

Fixpoint seq (rs : list re) : re :=
  match rs with
  | [] => Eps
  | r :: t => Seq r (seq t)
  end.

(** Case folding of [re.IGNORECASE] for an ASCII pattern character: the
    ASCII letters, and the four code points that Python equates with
    [i], [s] and [k]. *)
Definition fold_case (c : char) : char :=
  (if (0x41 <=? c) && (c <=? 0x5A) then c + 32
   else if (c =? 0x130) || (c =? 0x131) then 0x69
   else if c =? 0x17F then 0x73
   else if c =? 0x212A then 0x6B
   else c)%N.

Definition chr_match (ignorecase : bool) (p d : char) : bool :=
  if ignorecase then N.eqb (fold_case p) (fold_case d) else N.eqb p d.

(** The loops of [a*] and [a*?] over a matcher [step] for [a]: the greedy
    one tries another turn before it goes on with [k], the lazy one after.
    A turn must take at least one character, so [length s] turns are
    enough. *)
Fixpoint greedy {X}
    (step : str -> option str -> (str -> option str -> option X) -> option X)
    (k : str -> option str -> option X)
    (n : nat) (s : str) (cap : option str) : option X :=
  match n with
  | O => k s cap
  | S n' =>
      match step s cap
              (fun s' cap' =>
                 if (length s' <? length s)%nat then greedy step k n' s' cap'
                 else None) with
      | Some x => Some x
      | None => k s cap
      end
  end.

Fixpoint lazy {X}
    (step : str -> option str -> (str -> option str -> option X) -> option X)
    (k : str -> option str -> option X)
    (n : nat) (s : str) (cap : option str) : option X :=
  match n with
  | O => k s cap
  | S n' =>
      match k s cap with
      | Some x => Some x
      | None =>
          step s cap
            (fun s' cap' =>
               if (length s' <? length s)%nat then lazy step k n' s' cap'
               else None)
      end
  end.

(** A backtracking matcher in continuation-passing style: [run r s cap k]
    matches [r] at the start of [s], preferring the alternatives in
    Python's order, and passes the rest of the text and the capture to [k];
    [None] makes it backtrack. *)
Fixpoint run {X} (ic : bool) (r : re) (s : str) (cap : option str)
    (k : str -> option str -> option X) {struct r} : option X :=
  match r with
  | Eps => k s cap
  | Chr c =>
      match s with
      | d :: t => if chr_match ic c d then k t cap else None
      | [] => None
      end
  | Space =>
      match s with
      | d :: t => if isspace d then k t cap else None
      | [] => None
      end
  | Any =>
      match s with
      | _ :: t => k t cap
      | [] => None
      end
  | Seq a b => run ic a s cap (fun s' cap' => run ic b s' cap' k)
  | Opt a =>
      match run ic a s cap k with
      | Some x => Some x
      | None => k s cap
      end
  | Star a => greedy (run ic a) k (length s) s cap
  | LazyStar a => lazy (run ic a) k (length s) s cap
  | Group a =>
      run ic a s cap
        (fun s' _ => k s' (Some (firstn (length s - length s') s)))
  | Eol =>
      match s with
      | [] => k s cap
      | [c] => if N.eqb c nl then k s cap else None
      | _ => None
      end
  end.

(** The texts that a pattern matches, whatever the order of preference. *)
Inductive lang (ic : bool) : re -> str -> Prop :=
| L_Eps : lang ic Eps []
| L_Chr c d : chr_match ic c d = true -> lang ic (Chr c) [d]
| L_Space d : isspace d = true -> lang ic Space [d]
| L_Any d : lang ic Any [d]
| L_Seq a b u v : lang ic a u -> lang ic b v -> lang ic (Seq a b) (u ++ v)
| L_Opt_skip a : lang ic (Opt a) []
| L_Opt_take a u : lang ic a u -> lang ic (Opt a) u
| L_Star_stop a : lang ic (Star a) []
| L_Star_more a u v :
    lang ic a u -> lang ic (Star a) v -> lang ic (Star a) (u ++ v)
| L_Lazy_stop a : lang ic (LazyStar a) []
| L_Lazy_more a u v :
    lang ic a u -> lang ic (LazyStar a) v -> lang ic (LazyStar a) (u ++ v)
| L_Group a u : lang ic a u -> lang ic (Group a) u
| L_Eol : lang ic Eol [].

(** A matcher [step] for [a] only takes texts of [a]. *)
Definition sound_step {X} (ic : bool) (a : re)
    (step : str -> option str -> (str -> option str -> option X) -> option X)
  : Prop :=
  forall s cap k x,
    step s cap k = Some x ->
    exists s1 s2 cap', s = s1 ++ s2 /\ lang ic a s1 /\ k s2 cap' = Some x.

(** [re.match(r, s)]: a match at the start of [s]; the result is the text
    of group 1 (empty when the group took no part). *)
Definition match_ (ic : bool) (r : re) (s : str) : option str :=
  run ic r s None (fun _ cap => Some (match cap with Some g => g | None => [] end)).

Definition matches (ic : bool) (r : re) (s : str) : bool :=
  match match_ ic r s with Some _ => true | None => false end.

(** The first element of [re.findall(r, s)] for a pattern with one group:
    group 1 of the leftmost match; [None] when the list is empty. *)
Fixpoint findall_first (ic : bool) (r : re) (s : str) : option str :=
  match match_ ic r s with
  | Some g => Some g
  | None => match s with
            | [] => None
            | _ :: t => findall_first ic r t
            end
  end.

End Re.

(** ** [class QwenLlm]: the sanitizer *)

Module Sanitizer.
Import Re.

Definition fence : re := word (lit "```").

(** [re.compile(r'^\s*```(?:json)?\s*$')]; [re.match] anchors at the start,
    which is all that the leading [^] asks. *)
Definition code_block_start : re :=
  seq [Star Space; fence; Opt (word (lit "json")); Star Space; Eol].

(** [re.compile(r'^\s*```\s*$')] *)
Definition code_block_end : re :=
  seq [Star Space; fence; Star Space; Eol].

(** [r'```(?:json)?\s*([\s\S]*?)```'] *)
Definition extract_pattern : re :=
  seq [fence; Opt (word (lit "json")); Star Space; Group (LazyStar Any); fence].

(** The [for line in lines] loop; the state is [in_code_block] and the lines
    kept so far are returned in order. *)
Fixpoint filter_lines (in_code_block : bool) (lines : list str) : list str :=
  match lines with
  | [] => []
  | line :: rest =>
      if matches false code_block_start line then filter_lines true rest
      else if in_code_block && matches false code_block_end line
           then filter_lines false rest
      else if negb in_code_block then line :: filter_lines in_code_block rest
      else line :: filter_lines in_code_block rest
  end.

(** [QwenLlm._clean_markdown_json] on a [str] argument. *)
Definition _clean_markdown_json (text : str) : str :=
  if negb (nonempty text) then []
  else
    let text := strip text in
    let lines := split nl text in
    let cleaned_lines := filter_lines false lines in
    let result := join [nl] cleaned_lines in
    if negb (nonempty (strip result)) then
      match findall_first true extract_pattern text with
      | Some g => strip g
      | None => strip result
      end
    else strip result.

End Sanitizer.

(** ** Decoded JSON documents, as Python sees them *)

Module Json.

(** An [int], or a [float] given by its decimal mantissa and exponent. *)
Inductive number :=
| NInt (z : Z)
| NFloat (m e : Z).

#[warnings="-register-all"]
Inductive json :=
| JNull
| JBool (b : bool)
| JNum (n : number)
| JStr (s : str)
| JArr (l : list json)
| JObj (d : list (str * json)).

(** Truth value, as tested by [if v:]. *)
Definition truthy (v : json) : bool :=
  match v with
  | JNull => false
  | JBool b => b
  | JNum (NInt z) => negb (z =? 0)%Z
  | JNum (NFloat m _) => negb (m =? 0)%Z
  | JStr s => nonempty s
  | JArr l => match l with [] => false | _ => true end
  | JObj d => match d with [] => false | _ => true end
  end.

(** [k in v] for a [str] [k]: key of a dict, element of a list, substring
    of a str; the other values are not iterable. *)
Definition py_in (k : str) (v : json) : exc bool :=
  match v with
  | JObj d => Ok (dict_mem d k)
  | JArr l =>
      Ok (existsb (fun x => match x with JStr s => Py.eqb s k | _ => false end) l)
  | JStr s => Ok (contains s k)
  | _ => Raise TypeError
  end.

(** [v.get(k, default)]: only a dict has the method. *)
Definition py_get (v : json) (k : str) (default : json) : exc json :=
  match v with
  | JObj d => Ok (dict_get d k default)
  | _ => Raise AttributeError
  end.

(** [v[0]] *)
Definition py_first (v : json) : exc json :=
  match v with
  | JArr (x :: _) => Ok x
  | JArr [] => Raise IndexError
  | JStr (c :: _) => Ok (JStr [c])
  | JStr [] => Raise IndexError
  | JObj _ => Raise KeyError
  | _ => Raise TypeError
  end.

(** [v[k]] for a [str] [k] *)
Definition py_item (v : json) (k : str) : exc json :=
  match v with
  | JObj d => if dict_mem d k then Ok (dict_get d k JNull) else Raise KeyError
  | _ => Raise TypeError
  end.

(** The receiver of a [str] method such as [startswith] or [lower]. *)
Definition str_method (v : json) : exc str :=
  match v with
  | JStr s => Ok s
  | _ => Raise AttributeError
  end.

End Json.

Import Json.

(** ** [LlmResponse] and the generators that yield it *)

Record Part := { text : str }.
Record Content := { parts : list Part; role : str }.
Record UsageMetadata :=
  { prompt_token_count : json; total_token_count : json }.
Record LlmResponse :=
  { content : option Content;
    finish_reason : option FinishReason;
    usage_metadata : option UsageMetadata }.

(** [LlmResponse(content=types.Content(parts=[types.Part(text=t)],
    role="assistant"), finish_reason=None)] *)
Definition text_response (t : str) : LlmResponse :=
  {| content := Some {| parts := [ {| text := t |} ]; role := lit "assistant" |};
     finish_reason := None;
     usage_metadata := None |}.

(** [LlmResponse(content=None, finish_reason=r, usage_metadata=u)] *)
Definition final_response (r : option FinishReason) (u : option UsageMetadata)
  : LlmResponse :=
  {| content := None; finish_reason := r; usage_metadata := u |}.

(** A step of a generator body: it reads and writes [accumulated_text],
    yields responses, and returns or raises.  The text written and the
    responses yielded before an exception stay. *)
Definition gen (A : Type) : Type := str -> list LlmResponse * str * exc A.

Definition gret {A} (a : A) : gen A := fun acc => ([], acc, Ok a).

Definition gbind {A B} (m : gen A) (f : A -> gen B) : gen B :=
  fun acc =>
    match m acc with
    | (out, acc', Ok a) =>
        let '(out', acc'', r) := f a acc' in (out ++ out', acc'', r)
    | (out, acc', Raise e) => (out, acc', Raise e)
    end.

Definition yield (r : LlmResponse) : gen unit := fun acc => ([r], acc, Ok tt).
Definition lift {A} (m : exc A) : gen A := fun acc => ([], acc, m).
Definition get_accumulated : gen str := fun acc => ([], acc, Ok acc).
Definition set_accumulated (s : str) : gen unit := fun _ => ([], s, Ok tt).

(** [try: m  except json.JSONDecodeError: continue] *)
Definition except_decode (m : gen unit) : gen unit :=
  fun acc =>
    match m acc with
    | (out, acc', Raise JSONDecodeError) => (out, acc', Ok tt)
    | r => r
    end.

(** [try: m  except json.JSONDecodeError: continue
             except Exception: ...; continue] *)
Definition except_all (m : gen unit) : gen unit :=
  fun acc =>
    match m acc with
    | (out, acc', Raise _) => (out, acc', Ok tt)
    | r => r
    end.

(** How a generator run ends: the responses it yielded, and the exception
    that ended it, if any. *)
Definition ended {A} (r : list LlmResponse * str * exc A)
  : list LlmResponse * option exn :=
  match r with
  | (out, _, Ok _) => (out, None)
  | (out, _, Raise e) => (out, Some e)
  end.

Declare Scope gen_scope.
Delimit Scope gen_scope with gen.
Notation "x <- m ;; k" := (gbind m (fun x => k))
  (at level 61, m at next level, right associativity) : gen_scope.
Notation "' p <- m ;; k" := (gbind m (fun x => match x with p => k end))
  (at level 61, p pattern, m at next level, right associativity) : gen_scope.
Notation "m ;; k" := (gbind m (fun _ => k))
  (at level 61, right associativity) : gen_scope.

(** ** [class QwenLlm] *)

Module QwenLlm.
Import Sanitizer.

(** [QwenLlm._map_finish_reason].  The argument is annotated [str]; the
    processors pass whatever value the decoded document holds, so the
    function is given on every such value. *)
Definition _map_finish_reason (qwen_finish_reason : json)
  : exc (option FinishReason) :=
  if negb (truthy qwen_finish_reason) then Ok None
  else (s <- str_method qwen_finish_reason ;;
        Ok (Some (dict_get mapping (lower s) STOP)))%exc.

(** The text and the finish reason of one decoded unit: the
    [if "output" in data: ... elif "choices" in data: ...] block that both
    processors share. *)
Definition extract (data : json) : exc (json * json) :=
  (has_output <- py_in (lit "output") data ;;
   if has_output : bool then
     output <- py_get data (lit "output") (JObj []) ;;
     current_text <- py_get output (lit "text") (JStr []) ;;
     finish_reason_str <- py_get output (lit "finish_reason") JNull ;;
     Ok (current_text, finish_reason_str)
   else
     has_choices <- py_in (lit "choices") data ;;
     if has_choices : bool then
       choices <- py_get data (lit "choices") (JArr []) ;;
       if truthy choices then
         choice <- py_first choices ;;
         has_message <- py_in (lit "message") choice ;;
         if has_message : bool then
           message <- py_item choice (lit "message") ;;
           current_text <- py_get message (lit "content") (JStr []) ;;
           finish_reason_str <- py_get choice (lit "finish_reason") JNull ;;
           Ok (current_text, finish_reason_str)
         else
           has_delta <- py_in (lit "delta") choice ;;
           if has_delta : bool then
             delta <- py_item choice (lit "delta") ;;
             current_text <- py_get delta (lit "content") (JStr []) ;;
             finish_reason_str <- py_get choice (lit "finish_reason") JNull ;;
             Ok (current_text, finish_reason_str)
           else Ok (JStr [], JNull)
       else Ok (JStr [], JNull)
     else Ok (JStr [], JNull))%exc.

(** [if "usage" in data: usage_data = data["usage"]] *)
Definition extract_usage (data : json) : exc json :=
  (has_usage <- py_in (lit "usage") data ;;
   if has_usage : bool then py_item data (lit "usage") else Ok JNull)%exc.

(** The increment of [current_text] over [accumulated_text]; [post] is
    applied to the fragment that is yielded. *)
Definition emit_increment (post : str -> str) (current_text : json) : gen unit :=
  (if truthy current_text then
     current <- lift (str_method current_text) ;;
     accumulated_text <- get_accumulated ;;
     if startswith current accumulated_text then
       let incremental_text := slice_from current (Z.of_nat (length accumulated_text)) in
       set_accumulated current ;;
       if nonempty incremental_text
       then yield (text_response (post incremental_text))
       else gret tt
     else gret tt
   else gret tt)%gen.

(** The body of [_process_sse_stream] for one decoded unit. *)
Definition sse_unit (data : json) : gen unit :=
  ('(current_text, finish_reason_str) <- lift (extract data) ;;
   emit_increment (fun t => t) current_text ;;
   if truthy finish_reason_str then
     finish_reason <- lift (_map_finish_reason finish_reason_str) ;;
     yield (final_response finish_reason None)
   else gret tt)%gen.

(** The body of [_process_json_stream] for one decoded unit.  The metadata
    object is built from the two counts as the document has them: the
    check that the class makes on them, which can raise inside the [try],
    is not modelled, so the body can yield a completion where the code
    raises and yields none. *)
Definition json_unit (data : json) : gen unit :=
  ('(current_text, finish_reason_str) <- lift (extract data) ;;
   usage_data <- lift (extract_usage data) ;;
   emit_increment _clean_markdown_json current_text ;;
   if truthy finish_reason_str then
     finish_reason <- lift (_map_finish_reason finish_reason_str) ;;
     usage_metadata <-
       lift (if truthy usage_data then
               (p <- py_get usage_data (lit "input_tokens") (JNum (NInt 0)) ;;
                t <- py_get usage_data (lit "total_tokens") (JNum (NInt 0)) ;;
                Ok (Some {| prompt_token_count := p; total_token_count := t |}))%exc
             else Ok None) ;;
     yield (final_response finish_reason usage_metadata)
   else gret tt)%gen.

Section Streams.

(** [json.loads] and [bytes.decode('utf-8', errors='ignore')] are the
    library's; a chunk is the list of its bytes. *)
Variable json_loads : str -> exc json.
Variable decode : list N -> str.

(** The [while '\n' in buffer] loop of [_process_sse_stream]; it returns the
    buffer it leaves.  Every turn removes a line, so [length buffer] turns
    are enough. *)
Fixpoint sse_while (fuel : nat) (buffer : str) : gen str :=
  match fuel with
  | O => gret buffer
  | S fuel' =>
      match split1 nl buffer with
      | None => gret buffer
      | Some (line, buffer) =>
          let line := strip line in
          if negb (nonempty line) then sse_while fuel' buffer
          else if startswith line (lit "data: ") then
            let data_str := slice_from line 6 in
            if Py.eqb data_str (lit "[DONE]") then gret buffer
            else
              (except_decode
                 (data <- lift (json_loads data_str) ;; sse_unit data) ;;
               sse_while fuel' buffer)%gen
          else sse_while fuel' buffer
      end
  end.

(** One turn of [async for chunk in response.content.iter_any()] in
    [_process_sse_stream]. *)
Definition sse_chunk (buffer : str) (chunk : list N) : gen str :=
  match chunk with
  | [] => gret buffer
  | _ =>
      let chunk_str := decode chunk in
      let buffer := buffer ++ chunk_str in
      sse_while (length buffer) buffer
  end.

(** One turn of the loop of [_process_json_stream]. *)
Definition json_chunk (buffer : str) (chunk : list N) : gen str :=
  match chunk with
  | [] => gret buffer
  | _ =>
      let chunk_str := decode chunk in
      let buffer := buffer ++ chunk_str in
      let start := find buffer (lit "{") in
      let end_ := rfind buffer (lit "}") in
      if negb (start =? -1)%Z && negb (end_ =? -1)%Z && (end_ >? start)%Z then
        let json_str := slice buffer start (end_ + 1) in
        let buffer := slice_from buffer (end_ + 1) in
        (except_all (data <- lift (json_loads json_str) ;; json_unit data) ;;
         gret buffer)%gen
      else gret buffer
  end.

(** A generator run over the chunks that arrive: the loop stops when the
    body raises. *)
Fixpoint run_chunks (step : str -> list N -> gen str) (buffer : str)
    (chunks : list (list N)) : gen unit :=
  match chunks with
  | [] => gret tt
  | chunk :: rest =>
      (buffer <- step buffer chunk ;; run_chunks step buffer rest)%gen
  end.

(** [_process_sse_stream] and [_process_json_stream]: [buffer] and
    [accumulated_text] start empty; the result is the list of the responses
    yielded, with the exception that ended the generator, if any. *)
Definition _process_sse_stream (chunks : list (list N))
  : list LlmResponse * option exn :=
  ended (run_chunks sse_chunk [] chunks []).

Definition _process_json_stream (chunks : list (list N))
  : list LlmResponse * option exn :=
  ended (run_chunks json_chunk [] chunks []).

End Streams.

(** The units of a stream handed to a processor body one after the other,
    from the given [accumulated_text]. *)
Fixpoint run_units (body : json -> gen unit) (units : list json) : gen unit :=
  match units with
  | [] => gret tt
  | u :: rest => (body u ;; run_units body rest)%gen
  end.

(** The bodies with their handlers: an exception other than
    [JSONDecodeError] ends [_process_sse_stream]; [_process_json_stream]
    goes on with the next unit after any exception. *)
Definition sse_units : list json -> gen unit :=
  run_units (fun u => except_decode (sse_unit u)).
Definition json_units : list json -> gen unit :=
  run_units (fun u => except_all (json_unit u)).

End QwenLlm.

(** ** Generation parameters of a request *)

(** [request.config]: [None], or an object.  A field is [None] when the
    object has no such attribute ([hasattr] is false) and [Some v] when it
    has, [v] being [JNull] for an attribute set to [None].  An object is
    true when tested. *)
Record Config :=
  { temperature : option json;
    max_output_tokens : option json;
    top_p : option json;
    top_k : option json;
    repetition_penalty : option json;
    frequency_penalty : option json;
    presence_penalty : option json }.

(** [getattr(config, name, default)] *)
Definition getattr (config : option Config) (field : Config -> option json)
    (default : json) : json :=
  match config with
  | Some c => match field c with Some v => v | None => default end
  | None => default
  end.

Definition is_none (v : json) : bool :=
  match v with JNull => true | _ => false end.

(** [if config and hasattr(config, name) and config.name is not None:
        params[key] = config.name] *)
Definition set_optional (config : option Config) (field : Config -> option json)
    (key : str) (params : list (str * json)) : list (str * json) :=
  match config with
  | Some c =>
      match field c with
      | Some v => if negb (is_none v) then params ++ [(key, v)] else params
      | None => params
      end
  | None => params
  end.

(** [QwenLlm._convert_to_qwen_parameters] *)
Definition _convert_to_qwen_parameters (config : option Config)
  : list (str * json) :=
  let params :=
    [ (lit "temperature", getattr config temperature (JNum (NFloat 7 (-1))));
      (lit "max_tokens", getattr config max_output_tokens (JNum (NInt 2048))) ] in
  let params := set_optional config top_p (lit "top_p") params in
  let params := set_optional config top_k (lit "top_k") params in
  let params :=
    set_optional config repetition_penalty (lit "repetition_penalty") params in
  params.

(** ** [class OpenAILlm] *)

Module OpenAILlm.

(** The fields of [self] that the parameter builder reads. *)
Record OpenAILlm :=
  { _model_name : str;
    _default_temperature : json;
    _default_max_tokens : json }.

(** [OpenAILlm._get_generation_parameters] *)
Definition _get_generation_parameters (self : OpenAILlm) (config : option Config)
  : list (str * json) :=
  let params :=
    [ (lit "model", JStr (_model_name self));
      (lit "temperature", getattr config temperature (_default_temperature self));
      (lit "max_tokens",
       getattr config max_output_tokens (_default_max_tokens self)) ] in
  let params := set_optional config top_p (lit "top_p") params in
  let params :=
    set_optional config frequency_penalty (lit "frequency_penalty") params in
  let params :=
    set_optional config presence_penalty (lit "presence_penalty") params in
  params.

(** [OpenAILlm._map_finish_reason] *)
Definition _map_finish_reason (openai_finish_reason : option str)
  : option FinishReason :=
  match openai_finish_reason with
  | None => None
  | Some s =>
      if negb (nonempty s) then None
      else Some (dict_get mapping (lower s) STOP)
  end.

(** A chunk of the client library's stream, as far as it is read. *)
Record ChoiceDelta := { delta_content : option str }.
Record Choice := { delta : ChoiceDelta; choice_finish_reason : option str }.
Record ChatCompletionChunk := { choices : list Choice }.

(** [OpenAILlm._parse_openai_chunk] *)
Definition _parse_openai_chunk (chunk : ChatCompletionChunk) : LlmResponse :=
  match choices chunk with
  | [] => final_response None None
  | choice :: _ =>
      let text_content :=
        match delta_content (delta choice) with
        | Some s => if nonempty s then s else []
        | None => []
        end in
      if nonempty text_content then text_response text_content
      else
        let finish_reason := choice_finish_reason choice in
        if match finish_reason with Some r => nonempty r | None => false end
        then final_response (_map_finish_reason finish_reason) None
        else final_response None None
  end.

(** The streaming branch of [OpenAILlm.generate_content_async]: a response
    for every chunk, then the closing response. *)
Definition generate_content_stream (stream_response : list ChatCompletionChunk)
  : list LlmResponse :=
  map _parse_openai_chunk stream_response ++ [final_response (Some STOP) None].

End OpenAILlm.

(** ** [class SSEGenerator] of [main.py] *)

Module Main.

Record SSEGenerator := { event_id : Z }.

(** [SSEGenerator.__init__] *)
Definition __init__ : SSEGenerator := {| event_id := 0 |}.

(** [str(n)] for an [int]. *)
Definition str_of_int (n : Z) : str :=
  lit (DecimalString.NilZero.string_of_int (Z.to_int n)).

(** The frame [f"id: {id}\nevent: {event_type}\ndata: {dumped}\n\n"]. *)
Definition frame (id : Z) (event_type dumped : str) : str :=
  lit "id: " ++ str_of_int id ++ [nl] ++
  lit "event: " ++ event_type ++ [nl] ++
  lit "data: " ++ dumped ++ [nl; nl].

(** [SSEGenerator.generate_sse_event]; [dumped] is
    [json.dumps(data, ensure_ascii=False)].  The dict [event] that the
    method builds is not used.  The result is the frame with the generator
    after the call. *)
Definition generate_sse_event (self : SSEGenerator) (dumped event_type : str)
  : str * SSEGenerator :=
  let self := {| event_id := event_id self + 1 |} in
  (frame (event_id self) event_type dumped, self).

(** The one generator of the module, [sse_generator = SSEGenerator()], which
    every request handler uses. *)
Definition sse_generator : SSEGenerator := __init__.

(** The calls of [generate_sse_event] on one generator, in the order in
    which they are made.  Every call is given with the connection that makes
    it: the generator of a connection is suspended after each frame that it
    yields, so the calls of connections that are open together follow one
    another in any order, while a call itself is never interrupted.  The
    result is every frame with its connection, and the generator after the
    last call. *)
Fixpoint calls (g : SSEGenerator) (schedule : list (nat * (str * str)))
  : list (nat * str) * SSEGenerator :=
  match schedule with
  | [] => ([], g)
  | (c, (dumped, event_type)) :: rest =>
      let '(f, g) := generate_sse_event g dumped event_type in
      let '(fs, g) := calls g rest in
      ((c, f) :: fs, g)
  end.

End Main.

(** ** A decoder to run the processors on concrete streams

    The processors take [json.loads] and [bytes.decode] as parameters and
    their properties hold for every choice of them.  The decoders below
    stand for the library's on concrete inputs: [loads] follows the grammar
    of RFC 8259, [decode_ascii] reads a chunk of ASCII bytes.  [loads]
    agrees with [json.loads] on the documents it is run on here, which are
    plain ASCII; it is not [json.loads] on [NaN] and [Infinity], on escaped
    surrogate pairs, on numbers beyond the range of a float, or on
    integers too long for Python to read. *)

Module JsonRef.

Definition is_ws (c : char) : bool :=
  ((c =? 0x20) || (c =? 0x09) || (c =? 0x0A) || (c =? 0x0D))%N.

Fixpoint skip_ws (s : str) : str :=
  match s with
  | c :: t => if is_ws c then skip_ws t else s
  | [] => []
  end.

Definition digit (c : char) : option Z :=
  if ((0x30 <=? c) && (c <=? 0x39))%N then Some (Z.of_N (c - 0x30)) else None.

Definition hex (c : char) : option N :=
  if ((0x30 <=? c) && (c <=? 0x39))%N then Some (c - 0x30)%N
  else if ((0x41 <=? c) && (c <=? 0x46))%N then Some (c - 0x41 + 10)%N
  else if ((0x61 <=? c) && (c <=? 0x66))%N then Some (c - 0x61 + 10)%N
  else None.

(** The longest run of digits at the start of [s]: its value after [acc],
    how many digits it has, and the rest. *)
Fixpoint digits (s : str) (acc : Z) (n : Z) : Z * Z * str :=
  match s with
  | c :: t =>
      match digit c with
      | Some d => digits t (10 * acc + d)%Z (n + 1)%Z
      | None => (acc, n, s)
      end
  | [] => (acc, n, s)
  end.

(** The text of a string, after its opening quote. *)
Fixpoint string_body (s : str) : option (str * str) :=
  match s with
  | [] => None
  | c :: t =>
      if (c =? quote)%N then Some ([], t)
      else if (c =? 0x5C)%N then
        match t with
        | e :: t' =>
            let simple (x : char) :=
              match string_body t' with
              | Some (b, r) => Some (x :: b, r)
              | None => None
              end in
            if (e =? quote)%N then simple quote
            else if (e =? 0x5C)%N then simple 0x5C%N
            else if (e =? 0x2F)%N then simple 0x2F%N
            else if (e =? 0x62)%N then simple 0x08%N
            else if (e =? 0x66)%N then simple 0x0C%N
            else if (e =? 0x6E)%N then simple 0x0A%N
            else if (e =? 0x72)%N then simple 0x0D%N
            else if (e =? 0x74)%N then simple 0x09%N
            else if (e =? 0x75)%N then
              match t' with
              | a :: b :: c' :: d :: t'' =>
                  match hex a, hex b, hex c', hex d, string_body t'' with
                  | Some a, Some b, Some c', Some d, Some (body, r) =>
                      Some ((((a * 16 + b) * 16 + c') * 16 + d)%N :: body, r)
                  | _, _, _, _, _ => None
                  end
              | _ => None
              end
            else None
        | [] => None
        end
      else if (c <? 0x20)%N then None
      else match string_body t with
           | Some (b, r) => Some (c :: b, r)
           | None => None
           end
  end.

Definition number_ (s : str) : option (number * str) :=
  let '(neg, s) :=
    match s with
    | c :: t => if (c =? 0x2D)%N then (true, t) else (false, s)
    | [] => (false, s)
    end in
  let sign (z : Z) := if neg : bool then (- z)%Z else z in
  let '(i, ni, s) :=
    match s with
    | c :: t => if (c =? 0x30)%N then (0%Z, 1%Z, t) else digits s 0 0
    | [] => (0%Z, 0%Z, s)
    end in
  if (ni =? 0)%Z then None
  else
    let '(m, nf, s, has_frac, ok) :=
      match s with
      | c :: t =>
          if (c =? 0x2E)%N then
            let '(m, nf, r) := digits t i 0 in
            (m, nf, r, true, negb (nf =? 0)%Z)
          else (i, 0%Z, s, false, true)
      | [] => (i, 0%Z, s, false, true)
      end in
    if negb ok then None
    else
      match s with
      | c :: t =>
          if ((c =? 0x65) || (c =? 0x45))%N then
            let '(eneg, t) :=
              match t with
              | c' :: t' =>
                  if (c' =? 0x2D)%N then (true, t')
                  else if (c' =? 0x2B)%N then (false, t')
                  else (false, t)
              | [] => (false, t)
              end in
            let '(e, ne, r) := digits t 0 0 in
            if (ne =? 0)%Z then None
            else Some (NFloat (sign m) ((if eneg : bool then - e else e) - nf)%Z, r)
          else if has_frac : bool then Some (NFloat (sign m) (- nf)%Z, s)
          else Some (NInt (sign i), s)
      | [] =>
          if has_frac : bool then Some (NFloat (sign m) (- nf)%Z, s)
          else Some (NInt (sign i), s)
      end.

(** [d[k] = v] *)
Fixpoint dict_set (d : list (str * json)) (k : str) (v : json)
  : list (str * json) :=
  match d with
  | [] => [(k, v)]
  | (k', v') :: d' =>
      if Py.eqb k' k then (k', v) :: d' else (k', v') :: dict_set d' k v
  end.

Definition literal (w : string) (v : json) (s : str) : option (json * str) :=
  if startswith s (lit w) then Some (v, skipn (length (lit w)) s) else None.

Fixpoint value (fuel : nat) (s : str) : option (json * str) :=
  match fuel with
  | O => None
  | S fuel =>
      match skip_ws s with
      | [] => None
      | c :: t =>
          if (c =? 0x7B)%N then
            match skip_ws t with
            | c' :: t' =>
                if (c' =? 0x7D)%N then Some (JObj [], t')
                else members fuel (c' :: t') []
            | [] => None
            end
          else if (c =? 0x5B)%N then
            match skip_ws t with
            | c' :: t' =>
                if (c' =? 0x5D)%N then Some (JArr [], t')
                else elements fuel (c' :: t') []
            | [] => None
            end
          else if (c =? quote)%N then
            match string_body t with
            | Some (b, r) => Some (JStr b, r)
            | None => None
            end
          else if (c =? 0x74)%N then literal "true" (JBool true) (c :: t)
          else if (c =? 0x66)%N then literal "false" (JBool false) (c :: t)
          else if (c =? 0x6E)%N then literal "null" JNull (c :: t)
          else match number_ (c :: t) with
               | Some (n, r) => Some (JNum n, r)
               | None => None
               end
      end
  end

with members (fuel : nat) (s : str) (acc : list (str * json))
  : option (json * str) :=
  match fuel with
  | O => None
  | S fuel =>
      match skip_ws s with
      | c :: t =>
          if (c =? quote)%N then
            match string_body t with
            | Some (k, r) =>
                match skip_ws r with
                | c' :: r' =>
                    if (c' =? 0x3A)%N then
                      match value fuel r' with
                      | Some (v, r'') =>
                          let acc := dict_set acc k v in
                          match skip_ws r'' with
                          | c'' :: r3 =>
                              if (c'' =? 0x2C)%N then members fuel r3 acc
                              else if (c'' =? 0x7D)%N then Some (JObj acc, r3)
                              else None
                          | [] => None
                          end
                      | None => None
                      end
                    else None
                | [] => None
                end
            | None => None
            end
          else None
      | [] => None
      end
  end

with elements (fuel : nat) (s : str) (acc : list json) : option (json * str) :=
  match fuel with
  | O => None
  | S fuel =>
      match value fuel s with
      | Some (v, r) =>
          match skip_ws r with
          | c :: r' =>
              if (c =? 0x2C)%N then elements fuel r' (acc ++ [v])
              else if (c =? 0x5D)%N then Some (JArr (acc ++ [v]), r')
              else None
          | [] => None
          end
      | None => None
      end
  end.

(** [json.loads(s)] *)
Definition loads (s : str) : exc json :=
  match value (2 * length s + 2) s with
  | Some (v, r) =>
      match skip_ws r with
      | [] => Ok v
      | _ => Raise JSONDecodeError
      end
  | None => Raise JSONDecodeError
  end.

(** [chunk.decode('utf-8', errors='ignore')] on a chunk of ASCII bytes. *)
Definition decode_ascii (chunk : list N) : str := chunk.

End JsonRef.

(** ** Observations on responses, and well-formed units *)

(** The text parts of the responses, in the order they were yielded. *)
Definition texts (out : list LlmResponse) : list str :=
  flat_map (fun r => match content r with
                     | Some c => map text (parts c)
                     | None => []
                     end) out.

(** A response that carries a finish reason. *)
Definition is_complete (r : LlmResponse) : bool :=
  match finish_reason r with Some _ => true | None => false end.

Definition has_content (r : LlmResponse) : bool :=
  match content r with Some _ => true | None => false end.

(** The shapes of a response: a text delta, a text delta that is not empty,
    a completion, and a response with neither text nor finish reason. *)
Definition delta_shape (r : LlmResponse) : Prop :=
  exists t, r = text_response t.
Definition nonempty_delta (r : LlmResponse) : Prop :=
  exists t, t <> [] /\ r = text_response t.
Definition complete_shape (r : LlmResponse) : Prop :=
  exists fr u, r = final_response (Some fr) u.
Definition empty_shape (r : LlmResponse) : Prop :=
  r = final_response None None.

(** A response does not carry both a content and a finish reason. *)
Definition not_both (r : LlmResponse) : Prop :=
  has_content r && is_complete r = false.

(** Every response that the generator step [m] yields satisfies [P]. *)
Definition yields {A} (P : LlmResponse -> Prop) (m : gen A) : Prop :=
  forall acc, Forall P (fst (fst (m acc))).

(** The frames of [events] numbered from [first] on. *)
Fixpoint numbered (first : Z) (events : list (str * str)) : list str :=
  match events with
  | [] => []
  | (dumped, event_type) :: rest =>
      Main.frame first event_type dumped :: numbered (first + 1) rest
  end.

(** The events that connection [c] emits in a schedule, and the frames of
    connection [c] among those produced. *)
Definition events_of (c : nat) (schedule : list (nat * (str * str)))
  : list (str * str) :=
  map snd (filter (fun x => Nat.eqb (fst x) c) schedule).
Definition frames_of (c : nat) (frames : list (nat * str)) : list str :=
  map snd (filter (fun x => Nat.eqb (fst x) c) frames).

(** The positions of the calls of connection [c] in a schedule, counted
    from [first]. *)
Fixpoint identifiers_of (c : nat) (first : Z)
    (schedule : list (nat * (str * str))) : list Z :=
  match schedule with
  | [] => []
  | (c', _) :: rest =>
      if Nat.eqb c' c then first :: identifiers_of c (first + 1) rest
      else identifiers_of c (first + 1) rest
  end.

(** The frames of [events] with the identifiers [ids]. *)
Fixpoint framed (ids : list Z) (events : list (str * str)) : list str :=
  match ids, events with
  | i :: ids', (dumped, event_type) :: events' =>
      Main.frame i event_type dumped :: framed ids' events'
  | _, _ => []
  end.

(** An ASCII letter in upper case, any other code point as it is; two
    texts that differ in the case of ASCII letters only. *)
Definition upper_ascii (c : char) : char :=
  (if (0x61 <=? c) && (c <=? 0x7A) then c - 32 else c)%N.
Definition caseless (s t : str) : Prop :=
  map upper_ascii s = map upper_ascii t.

(** Shape A: [{"output": {"text": t}}] *)
Definition shape_a (t : str) : json :=
  JObj [(lit "output", JObj [(lit "text", JStr t)])].

(** Shape A with a finish reason:
    [{"output": {"text": t, "finish_reason": r}}] *)
Definition shape_a_finish (t r : str) : json :=
  JObj [(lit "output", JObj [(lit "text", JStr t); (lit "finish_reason", JStr r)])].

(** Shape B, streaming: [{"choices": [{"delta": {"content": t}}]}] *)
Definition shape_b_delta (t : str) : json :=
  JObj [(lit "choices", JArr [JObj [(lit "delta", JObj [(lit "content", JStr t)])]])].

(** The text of the document [{"output":{"text":"<t>"}}], for a [t] that
    needs no escape. *)
Definition shape_a_text (t : str) : str :=
  lit "{" ++ [quote] ++ lit "output" ++ [quote] ++ lit ":{" ++ [quote]
    ++ lit "text" ++ [quote] ++ lit ":" ++ [quote] ++ t ++ [quote] ++ lit "}}".

(** The text of [{"output":{"text":"<t>","finish_reason":"<r>"}}]. *)
Definition shape_a_finish_text (t r : str) : str :=
  lit "{" ++ [quote] ++ lit "output" ++ [quote] ++ lit ":{" ++ [quote]
    ++ lit "text" ++ [quote] ++ lit ":" ++ [quote] ++ t ++ [quote]
    ++ lit "," ++ [quote] ++ lit "finish_reason" ++ [quote] ++ lit ":"
    ++ [quote] ++ r ++ [quote] ++ lit "}}".

(** The text of [{"choices":[{"delta":{"content":"<t>"}}]}]. *)
Definition shape_b_delta_text (t : str) : str :=
  lit "{" ++ [quote] ++ lit "choices" ++ [quote] ++ lit ":[{" ++ [quote]
    ++ lit "delta" ++ [quote] ++ lit ":{" ++ [quote] ++ lit "content"
    ++ [quote] ++ lit ":" ++ [quote] ++ t ++ [quote] ++ lit "}}]}".

(** The SSE event [data: <d>\n\n]. *)
Definition sse_event (d : str) : str := lit "data: " ++ d ++ [nl; nl].

(** A chunk of the client library's stream with one choice. *)
Definition openai_chunk (text : option str) (reason : option str)
  : OpenAILlm.ChatCompletionChunk :=
  {| OpenAILlm.choices :=
       [ {| OpenAILlm.delta := {| OpenAILlm.delta_content := text |};
            OpenAILlm.choice_finish_reason := reason |} ] |}.

(** A chunk that is one SSE event whose data decodes to the unit [u]: the
    line [data: <d>], where [d] is not [[DONE]] and does not end in white
    space, and then any number of empty lines. *)
Definition sse_line (json_loads : str -> exc json) (decode : list N -> str)
    (chunk : list N) (u : json) : Prop :=
  chunk <> []
  /\ exists (d : str) (blank : nat),
       decode chunk = lit "data: " ++ d ++ nl :: repeat nl blank
       /\ existsb (fun c => N.eqb c nl) d = false
       /\ strip (lit "data: " ++ d) = lit "data: " ++ d
       /\ Py.eqb d (lit "[DONE]") = false
       /\ json_loads d = Ok u.

(** A chunk that is one JSON document which decodes to the unit [u]: the
    text from its first opening brace to its last closing brace, which ends
    the chunk, is the document. *)
Definition json_document (json_loads : str -> exc json) (decode : list N -> str)
    (chunk : list N) (u : json) : Prop :=
  chunk <> []
  /\ (0 <= find (decode chunk) (lit "{") < rfind (decode chunk) (lit "}"))%Z
  /\ slice_from (decode chunk) (rfind (decode chunk) (lit "}") + 1) = []
  /\ json_loads (slice (decode chunk) (find (decode chunk) (lit "{"))
                   (rfind (decode chunk) (lit "}") + 1)) = Ok u.

(** The response a processor yields for a fragment, if the fragment is not
    empty. *)
Definition fragment (post : str -> str) (t : str) : list LlmResponse :=
  if nonempty t then [text_response (post t)] else [].

(** [d.get(k)] with [None] for a key that the dict does not hold. *)
Fixpoint lookup (d : list (str * json)) (k : str) : option json :=
  match d with
  | [] => None
  | (k', v) :: d' => if Py.eqb k' k then Some v else lookup d' k
  end.

(** The value that an optional parameter has in the configuration: [None]
    when there is no configuration, no such attribute, or the attribute is
    [None]. *)
Definition given (config : option Config) (field : Config -> option json)
  : option json :=
  match config with
  | Some c =>
      match field c with
      | Some v => if is_none v then None else Some v
      | None => None
      end
  | None => None
  end.

(** The attribute of the configuration: [None] when there is no
    configuration or it has no such attribute. *)
Definition attribute (config : option Config) (field : Config -> option json)
  : option json :=
  match config with
  | Some c => field c
  | None => None
  end.

(** * The rest of the adapters and their callers *)

(** ** Requests: the conversation as messages *)

(** An element of [request.contents]: its [role] ([None] when unset) and
    its [parts] ([None] when unset).  A part is given by its text, [None]
    for a part without a [text] attribute or with the text [None]. *)
Record Turn :=
  { turn_role : option str;
    turn_parts : option (list (option str)) }.

(** The dict [{"role": r, "content": c}]. *)
Definition message (r : str) (c : json) : json :=
  JObj [(lit "role", JStr r); (lit "content", c)].

(** ["user" if content.role in ["user", "USER"] else "assistant"] *)
Definition role_name (r : option str) : str :=
  match r with
  | Some s =>
      if Py.eqb s (lit "user") || Py.eqb s (lit "USER") then lit "user"
      else lit "assistant"
  | None => lit "assistant"
  end.

(** The inner loop: the texts of the parts that have one. *)
Fixpoint text_parts (ps : list (option str)) : list str :=
  match ps with
  | [] => []
  | Some t :: rest => if nonempty t then t :: text_parts rest else text_parts rest
  | None :: rest => text_parts rest
  end.

(** The loop over [request.contents]; iterating over parts that are [None]
    raises. *)
Fixpoint convert_turns (contents : list Turn) : exc (list json) :=
  match contents with
  | [] => Ok []
  | content :: rest =>
      let role := role_name (turn_role content) in
      match turn_parts content with
      | None => Raise TypeError
      | Some ps =>
          let texts := text_parts ps in
          (messages <- convert_turns rest ;;
           Ok (match texts with
               | [] => messages
               | _ => message role (JStr (join [nl] texts)) :: messages
               end))%exc
      end
  end.

(** [QwenLlm._convert_to_qwen_messages] and
    [OpenAILlm._convert_to_openai_messages], which are the same text.
    [system_instruction] is the attribute of [request.config], [None] when
    there is no configuration or no such attribute. *)
Definition convert_messages (system_instruction : option json)
    (contents : list Turn) : exc (list json) :=
  let messages :=
    match system_instruction with
    | Some v => if truthy v then [message (lit "system") v] else []
    | None => []
    end in
  (turns <- convert_turns contents ;; Ok (messages ++ turns))%exc.

Definition _convert_to_qwen_messages := convert_messages.
Definition _convert_to_openai_messages := convert_messages.

(** The turns that contribute a message. *)
Definition has_text (content : Turn) : bool :=
  match turn_parts content with
  | Some ps => match text_parts ps with [] => false | _ => true end
  | None => false
  end.

(** ** [OpenAILlm]: the response that is not streamed *)

Module OpenAIResponse.

(** The completion of the client library, as far as it is read. *)
Record ChatCompletionMessage := { message_content : option str }.
Record CompletionChoice :=
  { choice_message : option ChatCompletionMessage;
    completion_finish_reason : option str }.
Record CompletionUsage := { prompt_tokens : Z; total_tokens : Z }.
Record ChatCompletion :=
  { completion_choices : list CompletionChoice;
    usage : option CompletionUsage }.

(** [OpenAILlm._parse_openai_response].  Nothing in the [try] block can
    raise on a completion of this type, so the handler is not reached. *)
Definition _parse_openai_response (response : ChatCompletion) : LlmResponse :=
  let text :=
    match completion_choices response with
    | choice :: _ =>
        match choice_message choice with
        | Some m => match message_content m with Some s => s | None => [] end
        | None => []
        end
    | [] => []
    end in
  let finish_reason_str :=
    match completion_choices response with
    | choice :: _ => completion_finish_reason choice
    | [] => Some (lit "stop")
    end in
  {| content := Some {| parts := [ {| text := text |} ]; role := lit "assistant" |};
     finish_reason := OpenAILlm._map_finish_reason finish_reason_str;
     usage_metadata :=
       match usage response with
       | Some u =>
           Some {| prompt_token_count := JNum (NInt (prompt_tokens u));
                   total_token_count := JNum (NInt (total_tokens u)) |}
       | None => None
       end |}.

(** The branch [if not stream] of [OpenAILlm.generate_content_async]. *)
Definition generate_content (response : ChatCompletion) : list LlmResponse :=
  [_parse_openai_response response].

End OpenAIResponse.

(** ** [class EnglishLearningAgent] of [agent.py] *)

Module Agent.

(** [self.context] *)
Record Context :=
  { student_level : str;
    topics_covered : list json;
    grammar_points : list json;
    vocabulary_learned : list json }.

(** The context that [__init__] sets. *)
Definition initial : Context :=
  {| student_level := lit "beginner";
     topics_covered := [];
     grammar_points := [];
     vocabulary_learned := [] |}.

(** [EnglishLearningAgent.update_context]: the context after the call,
    which is also what the call returns. *)
Definition update_context (context : Context) (student_response : str)
  : Context :=
  if (50 <? length student_response)%nat then
    {| student_level := lit "intermediate";
       topics_covered := topics_covered context;
       grammar_points := grammar_points context;
       vocabulary_learned := vocabulary_learned context |}
  else context.

End Agent.

(** ** [agent_stream_generator] of [main.py] *)

Module AgentStream.

(** [hasattr]: an attribute that an object may lack. *)
Inductive attr (A : Type) :=
| Missing
| Has (a : A).
Arguments Missing {A}.
Arguments Has {A} a.

(** An event of the runner, as far as it is read: [content] (an object or
    [None]) with its [parts] (a list or [None]) whose elements have a
    [text]; [agent_response] (an object or [None]) with its [text]. *)
Record EventPart := { part_text : attr (option str) }.
Record EventContent := { content_parts : option (list EventPart) }.
Record AgentResponse := { response_text : attr json }.
Record Event :=
  { event_content : attr (option EventContent);
    agent_response : attr (option AgentResponse) }.

(** The literals of lines 156 and 172, and the message of the
    [AttributeError] that [None.parts] raises. *)
Definition apology : str :=
  [0x62b1; 0x6b49; 0xff0c; 0x41; 0x49; 0x52a9; 0x624b; 0x6682; 0x65f6; 0x65e0;
   0x6cd5; 0x54cd; 0x5e94; 0x3002; 0x8bf7; 0x7a0d; 0x540e; 0x518d; 0x8bd5;
   0x3002]%N.
Definition default_response : str :=
  [0x6211; 0x6536; 0x5230; 0x4f60; 0x7684; 0x6d88; 0x606f; 0x4e86; 0xff01;
   0x8ba9; 0x6211; 0x60f3; 0x60f3; 0x600e; 0x4e48; 0x7528; 0x82f1; 0x8bed;
   0x56de; 0x7b54; 0x4f60; 0x2e; 0x2e; 0x2e]%N.
Definition error_prefix : str :=
  [0x5904; 0x7406; 0x54cd; 0x5e94; 0x65f6; 0x51fa; 0x9519; 0x3a; 0x20]%N.
Definition none_has_no_parts : str :=
  lit "'NoneType' object has no attribute 'parts'".

(** The payloads of the three kinds of frame. *)
Definition chunk_data (session_id text_chunk : str) : json :=
  JObj [(lit "text", JStr text_chunk); (lit "session_id", JStr session_id);
        (lit "event_type", JStr (lit "chunk"))].
Definition complete_data (session_id : str) (text_ : json) (full_response : str)
  : json :=
  JObj [(lit "text", text_); (lit "session_id", JStr session_id);
        (lit "event_type", JStr (lit "complete"));
        (lit "full_response", JStr full_response)].
Definition error_data (session_id message_ full_response : str) : json :=
  JObj [(lit "error", JStr (error_prefix ++ message_));
        (lit "session_id", JStr session_id);
        (lit "event_type", JStr (lit "error"));
        (lit "full_response",
         JStr (if nonempty full_response then full_response else apology))].

(** [for part in event.content.parts]: the frames yielded, as payload and
    event type, and [full_response] after the loop. *)
Fixpoint parts_loop (session_id : str) (parts_ : list EventPart)
    (full_response : str) : list (json * str) * str :=
  match parts_ with
  | [] => ([], full_response)
  | part :: rest =>
      match part_text part with
      | Has (Some text_chunk) =>
          if nonempty text_chunk then
            let full_response := full_response ++ text_chunk in
            let '(frames, full_response) :=
              parts_loop session_id rest full_response in
            ((chunk_data session_id text_chunk, lit "message") :: frames,
             full_response)
          else parts_loop session_id rest full_response
      | _ => parts_loop session_id rest full_response
      end
  end.

(** How [async for event in run_iter] ends: the events are used up, the
    loop is left by [break], or an exception with the given [str(e)] is
    raised. *)
Inductive loop_end :=
| Exhausted
| Broke
| Raised (message_ : str).

(** The loop over the events.  [failure] is the message of the exception
    that the runner raises after the last event, if it raises one. *)
Fixpoint events_loop (session_id : str) (events : list Event)
    (failure : option str) (full_response : str)
  : list (json * str) * str * loop_end :=
  match events with
  | [] =>
      match failure with
      | Some m => ([], full_response, Raised m)
      | None => ([], full_response, Exhausted)
      end
  | event :: rest =>
      let otherwise :=
        match agent_response event with
        | Has (Some r) =>
            match response_text r with
            | Has t =>
                ([(complete_data session_id t full_response, lit "complete")],
                 full_response, Broke)
            | Missing => events_loop session_id rest failure full_response
            end
        | _ => events_loop session_id rest failure full_response
        end in
      match event_content event with
      | Has None => ([], full_response, Raised none_has_no_parts)
      | Has (Some c) =>
          match content_parts c with
          | Some (part :: parts_) =>
              let '(frames, full_response) :=
                parts_loop session_id (part :: parts_) full_response in
              let '(frames', full_response, e) :=
                events_loop session_id rest failure full_response in
              (frames ++ frames', full_response, e)
          | _ => otherwise
          end
      | Missing => otherwise
      end
  end.

(** [agent_stream_generator] from [full_response = ""] on, for a session
    that has been found: the payload and the event type of every frame. *)
Definition agent_stream_events (session_id : str) (events : list Event)
    (failure : option str) : list (json * str) :=
  let '(frames, full_response, e) := events_loop session_id events failure [] in
  match e with
  | Raised m => frames ++ [(error_data session_id m full_response, lit "error")]
  | _ =>
      if nonempty full_response then
        frames ++ [(complete_data session_id (JStr full_response) full_response,
                    lit "complete")]
      else
        frames ++ [(complete_data session_id (JStr default_response)
                      default_response, lit "complete")]
  end.

(** The calls of [sse_generator.generate_sse_event] that a run makes, in
    order: the payload as [json.dumps] gives it and the event type.  The
    identifiers of the frames depend on the calls that other connections
    make on the module's generator in between (see [Main.calls]). *)
Definition agent_stream_calls (json_dumps : json -> str) (session_id : str)
    (events : list Event) (failure : option str) : list (str * str) :=
  map (fun f => (json_dumps (fst f), snd f))
    (agent_stream_events session_id events failure).

(** The texts of the frames of type [message]. *)
Definition streamed_texts (frames : list (json * str)) : list str :=
  flat_map (fun f =>
              if Py.eqb (snd f) (lit "message") then
                match fst f with
                | JObj ((_, JStr t) :: _) => [t]
                | _ => []
                end
              else []) frames.

(** The field [full_response] of a payload. *)
Definition full_response_of (data : json) : option json :=
  match data with
  | JObj d => lookup d (lit "full_response")
  | _ => None
  end.

End AgentStream.

(** ** Lines of an SSE text *)

(** A line that the SSE loop takes for the closing line. *)
Definition done_line (line : str) : bool :=
  let line := strip line in
  nonempty line && startswith line (lit "data: ")
  && Py.eqb (slice_from line 6) (lit "[DONE]").

(** The lines of a text that are ended by a newline. *)
Definition complete_lines (s : str) : list str := removelast (split nl s).

(** A line that the SSE loop passes over: it is blank, or not a [data: ]
    line, or its data does not decode. *)
Definition passed_over (json_loads : str -> exc json) (line : str) : Prop :=
  let line := strip line in
  nonempty line = false
  \/ startswith line (lit "data: ") = false
  \/ (Py.eqb (slice_from line 6) (lit "[DONE]") = false
      /\ json_loads (slice_from line 6) = Raise JSONDecodeError).

(** The text that [chunks] carry: a chunk that is empty is skipped before
    it is decoded. *)
Fixpoint decoded (decode : list N -> str) (chunks : list (list N)) : str :=
  match chunks with
  | [] => []
  | [] :: rest => decoded decode rest
  | chunk :: rest => decode chunk ++ decoded decode rest
  end.

(** ** Observations on the generators and their callers *)

(** The accumulated text after [m] is the one before it followed by the
    texts that [m] yields. *)
Definition tracks {A} (m : gen A) : Prop :=
  forall acc, snd (fst (m acc)) = acc ++ concat (texts (fst (fst (m acc)))).

(** The accumulated text after [m] starts with the one before it. *)
Definition grows {A} (m : gen A) : Prop :=
  forall acc, startswith (snd (fst (m acc))) acc = true.

(** What the body of the SSE loop does with a line that is not the closing
    one. *)
Definition line_body (json_loads : str -> exc json) (line : str) : gen unit :=
  let line := strip line in
  if negb (nonempty line) then gret tt
  else if startswith line (lit "data: ") then
    except_decode
      (data <- lift (json_loads (slice_from line 6)) ;; QwenLlm.sse_unit data)%gen
  else gret tt.

(** The SSE loop on a buffer, with a turn for each of its characters. *)
Definition sse_text (json_loads : str -> exc json) (s : str) : gen str :=
  QwenLlm.sse_while json_loads (length s) s.

(** No complete line of the text is the closing line. *)
Definition no_done_line (s : str) : Prop :=
  forallb (fun line => negb (done_line line)) (complete_lines s) = true.

(** [chunk.choices[0].delta.content or ""], and [""] for a chunk without
    choices. *)
Definition first_content (chunk : OpenAILlm.ChatCompletionChunk) : str :=
  match OpenAILlm.choices chunk with
  | choice :: _ =>
      match OpenAILlm.delta_content (OpenAILlm.delta choice) with
      | Some s => s
      | None => []
      end
  | [] => []
  end.

(** A message of a turn: the role is [user] or [assistant] and the content
    is a text that is not empty. *)
Definition turn_message (m : json) : Prop :=
  exists r t, m = message r (JStr t) /\ t <> []
              /\ (r = lit "user" \/ r = lit "assistant").

Definition message_role (m : json) : option json :=
  match m with JObj d => lookup d (lit "role") | _ => None end.

(** A frame of type [message]. *)
Definition is_message (f : json * str) : Prop := snd f = lit "message".

(** A matcher succeeds with a continuation whenever it succeeds with one
    that succeeds less often. *)
Definition mono_step {X}
    (step : str -> option str -> (str -> option str -> option X) -> option X)
  : Prop :=
  forall s cap k1 k2,
    (forall s' c, k1 s' c <> None -> k2 s' c <> None) ->
    step s cap k1 <> None -> step s cap k2 <> None.

(** * Properties *)

(** ** Lists of code points *)

Lemma eqb_eq (a b : str) : Py.eqb a b = true <-> a = b.
Proof.
  revert b; induction a as [|x a IH]; intros [|y b]; simpl; split;
    try congruence; try reflexivity.
  - intros H. apply andb_true_iff in H as [H1 H2].
    apply N.eqb_eq in H1. apply IH in H2. congruence.
  - intros H. injection H as -> ->. rewrite N.eqb_refl. simpl.
    now apply IH.
Qed.

Lemma startswith_app (p b : str) : startswith (p ++ b) p = true.
Proof.
  induction p as [|x p IH]; simpl; [reflexivity|].
  now rewrite N.eqb_refl, IH.
Qed.

Lemma startswith_split (s p : str) :
  startswith s p = true -> s = p ++ skipn (length p) s.
Proof.
  revert s; induction p as [|x p IH]; intros s H; simpl in *; [reflexivity|].
  destruct s as [|y s]; [discriminate|].
  apply andb_true_iff in H as [H1 H2]. apply N.eqb_eq in H1. subst y.
  f_equal. now apply IH.
Qed.

Lemma find_eq (s sub : str) :
  find s sub =
  if startswith s sub then 0%Z
  else match s with
       | [] => (-1)%Z
       | _ :: t => let r := find t sub in
                   if (r <? 0)%Z then (-1)%Z else (r + 1)%Z
       end.
Proof. destruct s; reflexivity. Qed.

Lemma find_app_nonneg (a sub b : str) : (0 <= find (a ++ sub ++ b) sub)%Z.
Proof.
  induction a as [|x a IH]; rewrite find_eq.
  - simpl app. rewrite startswith_app. lia.
  - destruct (startswith ((x :: a) ++ sub ++ b) sub); [lia|].
    simpl. destruct (find (a ++ sub ++ b) sub <? 0)%Z eqn:E; [|lia].
    apply Z.ltb_lt in E. lia.
Qed.

Lemma contains_app (a sub b : str) : contains (a ++ sub ++ b) sub = true.
Proof. unfold contains. apply Z.leb_le, find_app_nonneg. Qed.

Lemma lstrip_suffix (s : str) : exists a, s = a ++ lstrip s.
Proof.
  induction s as [|c s [a IH]]; simpl.
  - now exists [].
  - destruct (isspace c).
    + exists (c :: a). simpl. now f_equal.
    + now exists [].
Qed.

Lemma strip_substring (s : str) : exists a b, s = a ++ strip s ++ b.
Proof.
  unfold strip, rstrip.
  destruct (lstrip_suffix s) as [a Ha].
  destruct (lstrip_suffix (rev (lstrip s))) as [b Hb].
  exists a, (rev b).
  rewrite <- rev_app_distr, <- Hb, rev_involutive. exact Ha.
Qed.

Lemma lstrip_idem (s : str) : lstrip (lstrip s) = lstrip s.
Proof.
  induction s as [|c s IH]; simpl; [reflexivity|].
  destruct (isspace c) eqn:E; [exact IH|]. simpl. now rewrite E.
Qed.

Lemma lstrip_keeps_last (a : str) (c : char) :
  isspace c = false -> exists w, lstrip (a ++ [c]) = w ++ [c].
Proof.
  intros Hc. induction a as [|x a [w IH]]; simpl.
  - rewrite Hc. now exists [].
  - destruct (isspace x).
    + now exists w.
    + now exists (x :: a).
Qed.

Lemma lstrip_rstrip (u : str) : lstrip u = u -> lstrip (rstrip u) = rstrip u.
Proof.
  intros H. destruct u as [|c t]; [reflexivity|].
  simpl in H. destruct (isspace c) eqn:E.
  - exfalso. destruct (lstrip_suffix t) as [a Ha].
    rewrite H in Ha. apply (f_equal (@length _)) in Ha.
    rewrite length_app in Ha. simpl in Ha. lia.
  - unfold rstrip. simpl rev.
    destruct (lstrip_keeps_last (rev t) c E) as [w Hw].
    rewrite Hw, rev_app_distr. simpl. now rewrite E.
Qed.

Lemma strip_idem (s : str) : strip (strip s) = strip s.
Proof.
  unfold strip. rewrite lstrip_rstrip by apply lstrip_idem.
  unfold rstrip. now rewrite rev_involutive, lstrip_idem.
Qed.

Lemma split_not_nil (sep : char) (s : str) : split sep s <> [].
Proof.
  induction s as [|c s IH]; simpl; [discriminate|].
  destruct (c =? sep)%N; [discriminate|].
  destruct (split sep s); [contradiction|discriminate].
Qed.

Lemma join_cons (sep p : str) (q : str) (ps : list str) :
  join sep (p :: q :: ps) = p ++ sep ++ join sep (q :: ps).
Proof. reflexivity. Qed.

Lemma join_split (s : str) : join [nl] (split nl s) = s.
Proof.
  induction s as [|c s IH]; [reflexivity|].
  simpl split. destruct (split nl s) as [|l ls] eqn:Hs;
    [now apply split_not_nil in Hs|].
  destruct (c =? nl)%N eqn:E.
  - apply N.eqb_eq in E. subst c. rewrite join_cons, IH. reflexivity.
  - destruct ls as [|l' ls].
    + simpl in *. now subst.
    + rewrite join_cons. rewrite join_cons in IH.
      change ((c :: l) ++ [nl] ++ join [nl] (l' :: ls))
        with (c :: (l ++ [nl] ++ join [nl] (l' :: ls))).
      now rewrite IH.
Qed.

Lemma split_first_prefix (sep : char) (s l : str) (ls : list str) :
  split sep s = l :: ls -> exists b, s = l ++ b.
Proof.
  revert l ls; induction s as [|c s IH]; intros l ls H; simpl in H.
  - injection H as <- <-. now exists [].
  - destruct (c =? sep)%N.
    + injection H as <- <-. now exists (c :: s).
    + destruct (split sep s) as [|l' ls'] eqn:Hs.
      * injection H as <- <-. now exists s.
      * injection H as <- <-. destruct (IH _ _ eq_refl) as [b ->].
        now exists b.
Qed.

Lemma split_substring (sep : char) (s line : str) :
  In line (split sep s) -> exists a b, s = a ++ line ++ b.
Proof.
  revert line; induction s as [|c s IH]; intros line H; simpl in H.
  - destruct H as [<-|[]]. now exists [], [].
  - destruct (c =? sep)%N.
    + destruct H as [<-|H].
      * now exists [], (c :: s).
      * destruct (IH _ H) as (a & b & ->). now exists (c :: a), b.
    + destruct (split sep s) as [|l ls] eqn:Hs.
      * destruct H as [<-|[]]. now exists [], s.
      * destruct H as [<-|H].
        -- destruct (split_first_prefix _ _ _ _ Hs) as [b ->].
           now exists [], b.
        -- destruct (IH _ (or_intror H)) as (a & b & ->).
           now exists (c :: a), b.
Qed.

(** ** The matcher only accepts texts of the pattern *)

Section RunSound.
Import Re.
Context {X : Type} (ic : bool).

Lemma greedy_sound a (step : str -> option str -> (str -> option str -> option X) -> option X) :
  sound_step ic a step ->
  forall n s cap k x,
    greedy step k n s cap = Some x ->
    exists s1 s2 cap', s = s1 ++ s2 /\ lang ic (Star a) s1 /\ k s2 cap' = Some x.
Proof.
  intros Hstep n. induction n as [|n IH]; intros s cap k x H; simpl in H.
  - exists [], s, cap. repeat split; [constructor | exact H].
  - destruct (step s cap _) as [y|] eqn:E.
    + injection H as ->.
      apply Hstep in E as (s1 & s2 & cap' & -> & L1 & E).
      destruct (length s2 <? length (s1 ++ s2))%nat; [|discriminate].
      apply IH in E as (u & v & cap'' & -> & L2 & E).
      exists (s1 ++ u), v, cap''. rewrite app_assoc.
      repeat split; [now constructor | exact E].
    + exists [], s, cap. repeat split; [constructor | exact H].
Qed.

Lemma lazy_sound a (step : str -> option str -> (str -> option str -> option X) -> option X) :
  sound_step ic a step ->
  forall n s cap k x,
    lazy step k n s cap = Some x ->
    exists s1 s2 cap',
      s = s1 ++ s2 /\ lang ic (LazyStar a) s1 /\ k s2 cap' = Some x.
Proof.
  intros Hstep n. induction n as [|n IH]; intros s cap k x H; simpl in H.
  - exists [], s, cap. repeat split; [constructor | exact H].
  - destruct (k s cap) as [y|] eqn:E.
    + injection H as ->. exists [], s, cap.
      repeat split; [constructor | exact E].
    + apply Hstep in H as (s1 & s2 & cap' & -> & L1 & H).
      destruct (length s2 <? length (s1 ++ s2))%nat; [|discriminate].
      apply IH in H as (u & v & cap'' & -> & L2 & H).
      exists (s1 ++ u), v, cap''. rewrite app_assoc.
      repeat split; [now constructor | exact H].
Qed.

Lemma run_sound (r : re) : sound_step ic r (run (X:=X) ic r).
Proof.
  induction r; intros s cap k x H; simpl in H.
  - exists [], s, cap. repeat split; [constructor | exact H].
  - destruct s as [|d t]; [discriminate|].
    destruct (chr_match ic c d) eqn:E; [|discriminate].
    exists [d], t, cap. repeat split; [now constructor | exact H].
  - destruct s as [|d t]; [discriminate|].
    destruct (isspace d) eqn:E; [|discriminate].
    exists [d], t, cap. repeat split; [now constructor | exact H].
  - destruct s as [|d t]; [discriminate|].
    exists [d], t, cap. repeat split; [constructor | exact H].
  - apply IHr1 in H as (s1 & s2 & cap' & -> & L1 & H).
    apply IHr2 in H as (u & v & cap'' & -> & L2 & H).
    exists (s1 ++ u), v, cap''. rewrite app_assoc.
    repeat split; [now constructor | exact H].
  - destruct (run ic r s cap k) as [y|] eqn:E.
    + injection H as ->.
      apply IHr in E as (s1 & s2 & cap' & -> & L1 & E).
      exists s1, s2, cap'. repeat split; [now constructor | exact E].
    + exists [], s, cap. repeat split; [constructor | exact H].
  - now apply (greedy_sound r (run ic r) IHr) in H.
  - now apply (lazy_sound r (run ic r) IHr) in H.
  - apply IHr in H as (s1 & s2 & cap' & -> & L1 & H).
    eexists s1, s2, _. repeat split; [now constructor | exact H].
  - destruct s as [|c [|c' t]].
    + exists [], [], cap. repeat split; [constructor | exact H].
    + destruct (c =? nl)%N; [|discriminate].
      exists [], [c], cap. repeat split; [constructor | exact H].
    + discriminate.
Qed.

End RunSound.

(** ** The sanitizer *)

Section SanitizerFacts.
Import Re Sanitizer.

Lemma chr_match_backtick (ic : bool) (d : char) :
  chr_match ic 0x60%N d = true -> d = 0x60%N.
Proof.
  unfold chr_match. destruct ic; intros H; apply N.eqb_eq in H;
    [|now subst].
  change (fold_case 96%N) with 96%N in H. unfold fold_case in H.
  repeat match type of H with
         | context [if ?b then _ else _] => destruct b eqn:?
         end;
    rewrite ?andb_true_iff, ?orb_true_iff, ?N.leb_le, ?N.eqb_eq in *; lia.
Qed.

Lemma lang_fence (ic : bool) (u : str) :
  lang ic fence u -> u = lit "```".
Proof.
  unfold fence. cbn. intros H.
  repeat match goal with
         | H : lang _ (Seq _ _) _ |- _ => inversion H; subst; clear H
         | H : lang _ (Chr _) _ |- _ => inversion H; subst; clear H
         | H : lang _ Eps _ |- _ => inversion H; subst; clear H
         | H : chr_match _ _ _ = true |- _ =>
             apply chr_match_backtick in H; subst
         end.
  reflexivity.
Qed.

(** A line that opens a fence holds the fence. *)
Lemma code_block_start_fence (line : str) :
  matches false code_block_start line = true ->
  exists a b, line = a ++ lit "```" ++ b.
Proof.
  unfold matches, match_. intros H.
  destruct (run _ _ _ _ _) as [g|] eqn:E; [clear H|discriminate].
  apply run_sound in E as (s1 & s2 & _ & -> & L & _).
  unfold code_block_start in L. cbn [seq] in L.
  inversion L as [| | | |? ? u v L1 L2| | | | | | | |]; subst.
  inversion L2 as [| | | |? ? u' v' L3 L4| | | | | | | |]; subst.
  apply lang_fence in L3. subst u'.
  exists u, (v' ++ s2). now rewrite <- !app_assoc.
Qed.

(** A text in which the extraction pattern is found holds the fence. *)
Lemma extract_pattern_fence (text g : str) :
  findall_first true extract_pattern text = Some g ->
  exists a b, text = a ++ lit "```" ++ b.
Proof.
  induction text as [|c t IH]; simpl; intros H.
  - destruct (match_ true extract_pattern []) eqn:E; [|discriminate].
    vm_compute in E. discriminate.
  - destruct (match_ true extract_pattern (c :: t)) as [g'|] eqn:E.
    + unfold match_ in E.
      apply run_sound in E as (s1 & s2 & _ & -> & L & _).
      unfold extract_pattern in L. cbn [seq] in L.
      inversion L as [| | | |? ? u v L1 L2| | | | | | | |]; subst.
      apply lang_fence in L1. subst u.
      exists [], (v ++ s2). now rewrite <- !app_assoc.
    + destruct (IH H) as (a & b & ->). now exists (c :: a), b.
Qed.

Lemma filter_lines_keep (lines : list str) :
  Forall (fun l => matches false code_block_start l = false) lines ->
  filter_lines false lines = lines.
Proof.
  induction 1 as [|l ls Hl _ IH]; simpl; [reflexivity|].
  now rewrite Hl, IH.
Qed.

Lemma no_fence_substring (text a b u : str) :
  contains text (lit "```") = false -> text = a ++ u ++ b ->
  forall x y, u <> x ++ lit "```" ++ y.
Proof.
  intros H -> x y ->.
  rewrite <- !app_assoc, app_assoc, contains_app in H. discriminate.
Qed.

Lemma clean_without_fence (text : str) :
  contains text (lit "```") = false ->
  _clean_markdown_json text = strip text.
Proof.
  intros H. unfold _clean_markdown_json.
  destruct text as [|c t]; [reflexivity|]. cbn [nonempty negb].
  set (text := c :: t) in *.
  destruct (strip_substring text) as (a & b & Hab).
  pose proof (no_fence_substring _ _ _ _ H Hab) as Hstrip.
  rewrite filter_lines_keep.
  - rewrite join_split, strip_idem.
    destruct (nonempty (strip text)); cbn [negb]; [reflexivity|].
    destruct (findall_first _ _ _) as [g|] eqn:E; [|reflexivity].
    apply extract_pattern_fence in E as (x & y & E).
    now apply Hstrip in E.
  - apply Forall_forall. intros line Hin.
    destruct (matches false code_block_start line) eqn:E; [|reflexivity].
    exfalso. apply code_block_start_fence in E as (x & y & ->).
    apply split_substring in Hin as (a' & b' & Hin).
    apply (Hstrip (a' ++ x) (y ++ b')).
    rewrite Hin. now rewrite <- !app_assoc.
Qed.

End SanitizerFacts.

(** C8.  The sanitizer turns the fenced example
    [```json\n{"a":1}\n```] into [{"a":1}]; a text that holds no fence
    marker comes back with the white space at its two ends removed, and is
    otherwise unchanged. *)
Theorem sanitizer_fenced_and_unfenced :
  Sanitizer._clean_markdown_json
    (lit "```json" ++ [nl] ++ lit "{" ++ [quote] ++ lit "a" ++ [quote]
       ++ lit ":1}" ++ [nl] ++ lit "```")
  = lit "{" ++ [quote] ++ lit "a" ++ [quote] ++ lit ":1}"
  /\ forall text : str,
       contains text (lit "```") = false ->
       Sanitizer._clean_markdown_json text = strip text.
Proof.
  split; [vm_compute; reflexivity | exact clean_without_fence].
Qed.

Lemma sanitizer_fenced_and_unfenced_witness :
  contains (lit " Hello world ") (lit "```") = false
  /\ Sanitizer._clean_markdown_json (lit " Hello world ") = lit "Hello world".
Proof.
  split; [reflexivity|].
  rewrite (proj2 sanitizer_fenced_and_unfenced (lit " Hello world "));
    reflexivity.
Defined.

(** C8, as the specification has it, fails: a text without a fence marker
    that ends in a blank does not come back unchanged. *)
Lemma sanitizer_changes_unfenced_text :
  contains (lit "Hello ") (lit "```") = false
  /\ Sanitizer._clean_markdown_json (lit "Hello ") = lit "Hello"
  /\ Sanitizer._clean_markdown_json (lit "Hello ") <> lit "Hello ".
Proof.
  repeat split; try reflexivity. vm_compute. discriminate.
Qed.

(** ** The finish-reason mapper *)

Lemma dict_get_absent {V} (d : list (str * V)) (k : str) (default : V) :
  dict_mem d k = false -> dict_get d k default = default.
Proof.
  induction d as [|[k' v] d IH]; simpl; [reflexivity|].
  destruct (Py.eqb k' k); simpl; [discriminate | exact IH].
Qed.

Lemma lower_nonempty (s : str) : nonempty (lower s) = nonempty s.
Proof. now destruct s. Qed.

Ltac char_cases :=
  unfold upper_ascii, lower_char;
  repeat (match goal with
          | |- context [(?a <=? ?b)%N] =>
              lazymatch a with context [if _ then _ else _] => fail | _ => idtac end;
              lazymatch b with context [if _ then _ else _] => fail | _ => idtac end;
              destruct (N.leb_spec a b)
          | |- context [(?a =? ?b)%N] =>
              lazymatch a with context [if _ then _ else _] => fail | _ => idtac end;
              destruct (N.eqb_spec a b)
          end; cbn [andb]);
  intros; try lia.

Lemma upper_lower (a b : char) :
  upper_ascii a = upper_ascii b -> lower_char a = lower_char b.
Proof. char_cases. Qed.

Lemma lower_upper (c d : char) :
  lower_char c = d -> d <> 0x6B%N -> upper_ascii c = upper_ascii d.
Proof. intros <-. char_cases. Qed.

Lemma upper_ascii_idem (c : char) : upper_ascii (upper_ascii c) = upper_ascii c.
Proof. char_cases. Qed.

Lemma caseless_lower (s t : str) : caseless s t -> lower s = lower t.
Proof.
  unfold caseless, lower. revert t; induction s as [|a s IH]; intros [|b t] H;
    try discriminate; [reflexivity|].
  cbn [map] in *. injection H as Ha Hs.
  now rewrite (upper_lower _ _ Ha), (IH _ Hs).
Qed.

Lemma lower_caseless (s k : str) :
  Forall (fun d => d <> 0x6B%N) k -> lower s = k -> caseless s k.
Proof.
  unfold caseless, lower. intros Hk. revert s.
  induction Hk as [|d k Hd _ IH]; intros [|c s] H; try discriminate;
    [reflexivity|].
  cbn [map] in *. injection H as Hc Hs.
  now rewrite (lower_upper _ _ Hc Hd), (IH _ Hs).
Qed.

(** What the table gives for a lowered reason. *)
Lemma mapping_entries (x : str) :
  (dict_get mapping x STOP = MAX_TOKENS <-> x = lit "length")
  /\ (dict_get mapping x STOP = SAFETY <-> x = lit "content_filter")
  /\ (x <> lit "length" -> x <> lit "content_filter" ->
      dict_get mapping x STOP = STOP).
Proof.
  unfold mapping. cbn [dict_get].
  destruct (Py.eqb (lit "stop") x) eqn:E1;
    [apply eqb_eq in E1; subst x;
     repeat split; intros; try discriminate; reflexivity|].
  destruct (Py.eqb (lit "length") x) eqn:E2;
    [apply eqb_eq in E2; subst x;
     repeat split; intros; try discriminate; try reflexivity; congruence|].
  destruct (Py.eqb (lit "content_filter") x) eqn:E3;
    [apply eqb_eq in E3; subst x;
     repeat split; intros; try discriminate; try reflexivity; congruence|].
  assert (N2 : x <> lit "length")
    by (intros ->; rewrite (proj2 (eqb_eq _ _) eq_refl) in E2; discriminate).
  assert (N3 : x <> lit "content_filter")
    by (intros ->; rewrite (proj2 (eqb_eq _ _) eq_refl) in E3; discriminate).
  destruct (Py.eqb (lit "function_call") x);
    [repeat split; intros; try discriminate; try reflexivity; congruence|].
  destruct (Py.eqb (lit "tool_calls") x);
    repeat split; intros; try discriminate; try reflexivity; congruence.
Qed.

(** C6.  Both mappers are total functions of a reason that is a [str] or
    [None] and agree; [None] and the empty string give [None], and any
    other string gives a reason, never a failure.  The letter case of the
    reason does not count: two strings that differ in the case of ASCII
    letters only give the same result, so ["stop"], ["length"] and
    ["content_filter"] written in any letter case give [STOP],
    [MAX_TOKENS] and [SAFETY].  [MAX_TOKENS] and [SAFETY] are given for
    those spellings only: every other string that is not empty gives
    [STOP].  In terms of [str.lower]: the result is the table's entry for
    the lower case of the string, and [STOP] when the table has none. *)
Theorem finish_reason_mapper :
  QwenLlm._map_finish_reason JNull = Ok None
  /\ OpenAILlm._map_finish_reason None = None
  /\ forall s : str,
       QwenLlm._map_finish_reason (JStr s)
       = Ok (OpenAILlm._map_finish_reason (Some s))
       /\ (s = [] -> OpenAILlm._map_finish_reason (Some s) = None)
       /\ (s <> [] ->
           OpenAILlm._map_finish_reason (Some s)
           = Some (dict_get mapping (lower s) STOP))
       /\ (lower s = lit "stop" ->
           OpenAILlm._map_finish_reason (Some s) = Some STOP)
       /\ (lower s = lit "length" ->
           OpenAILlm._map_finish_reason (Some s) = Some MAX_TOKENS)
       /\ (lower s = lit "content_filter" ->
           OpenAILlm._map_finish_reason (Some s) = Some SAFETY)
       /\ (s <> [] -> dict_mem mapping (lower s) = false ->
           OpenAILlm._map_finish_reason (Some s) = Some STOP)
       /\ (forall t : str, lower s = lower t ->
           OpenAILlm._map_finish_reason (Some s)
           = OpenAILlm._map_finish_reason (Some t))
       /\ (forall t : str, caseless s t ->
           OpenAILlm._map_finish_reason (Some s)
           = OpenAILlm._map_finish_reason (Some t))
       /\ (OpenAILlm._map_finish_reason (Some (map upper_ascii s))
           = OpenAILlm._map_finish_reason (Some s))
       /\ (caseless s (lit "stop") ->
           OpenAILlm._map_finish_reason (Some s) = Some STOP)
       /\ (OpenAILlm._map_finish_reason (Some s) = Some MAX_TOKENS
           <-> caseless s (lit "length"))
       /\ (OpenAILlm._map_finish_reason (Some s) = Some SAFETY
           <-> caseless s (lit "content_filter"))
       /\ (s <> [] -> ~ caseless s (lit "length") ->
           ~ caseless s (lit "content_filter") ->
           OpenAILlm._map_finish_reason (Some s) = Some STOP).
Proof.
  split; [reflexivity|]. split; [reflexivity|]. intros s.
  assert (Hne : s <> [] ->
                OpenAILlm._map_finish_reason (Some s)
                = Some (dict_get mapping (lower s) STOP)).
  { intros H. destruct s; [contradiction | reflexivity]. }
  assert (Hkey : forall k r, k <> [] -> lower s = k ->
                 dict_get mapping k STOP = r ->
                 OpenAILlm._map_finish_reason (Some s) = Some r).
  { intros k r Hk E <-. rewrite <- E. apply Hne. intros ->. now apply Hk. }
  assert (Hlow : forall t : str, lower s = lower t ->
                 OpenAILlm._map_finish_reason (Some s)
                 = OpenAILlm._map_finish_reason (Some t)).
  { intros t E. unfold OpenAILlm._map_finish_reason.
    rewrite <- (lower_nonempty s), <- (lower_nonempty t), E. reflexivity. }
  assert (Hcase : forall t : str, caseless s t ->
                  OpenAILlm._map_finish_reason (Some s)
                  = OpenAILlm._map_finish_reason (Some t)).
  { intros t H. apply Hlow. now apply caseless_lower. }
  assert (Hsome : forall r, OpenAILlm._map_finish_reason (Some s) = Some r ->
                  s <> [] /\ dict_get mapping (lower s) STOP = r).
  { intros r H. destruct s as [|c s]; [discriminate H|].
    split; [discriminate|]. rewrite Hne in H by discriminate.
    now injection H. }
  assert (Hl : Forall (fun d => d <> 0x6B%N) (lit "length"))
    by (repeat constructor; discriminate).
  assert (Hc : Forall (fun d => d <> 0x6B%N) (lit "content_filter"))
    by (repeat constructor; discriminate).
  split; [destruct s; reflexivity|].
  split; [now intros ->|].
  split; [exact Hne|].
  split; [intros E; apply (Hkey (lit "stop"));
          [discriminate | exact E | reflexivity]|].
  split; [intros E; apply (Hkey (lit "length"));
          [discriminate | exact E | reflexivity]|].
  split; [intros E; apply (Hkey (lit "content_filter"));
          [discriminate | exact E | reflexivity]|].
  split; [intros H1 H2; rewrite (Hne H1); now rewrite dict_get_absent|].
  split; [exact Hlow|].
  split; [exact Hcase|].
  split.
  { symmetry. apply Hcase. unfold caseless. rewrite map_map.
    apply map_ext. intros c. symmetry. apply upper_ascii_idem. }
  split.
  { intros H. rewrite (Hcase _ H). reflexivity. }
  split.
  { split.
    - intros H. apply Hsome in H as [_ H].
      apply (proj1 (mapping_entries _)) in H. now apply lower_caseless.
    - intros H. rewrite (Hcase _ H). reflexivity. }
  split.
  { split.
    - intros H. apply Hsome in H as [_ H].
      apply (proj1 (proj2 (mapping_entries _))) in H. now apply lower_caseless.
    - intros H. rewrite (Hcase _ H). reflexivity. }
  intros H1 H2 H3. rewrite (Hne H1). f_equal.
  apply (proj2 (proj2 (mapping_entries _))); intros E.
  - apply H2. now apply lower_caseless.
  - apply H3. now apply lower_caseless.
Qed.

Lemma finish_reason_mapper_witness :
  lower (lit "STOP") = lit "stop"
  /\ OpenAILlm._map_finish_reason (Some (lit "STOP")) = Some STOP
  /\ QwenLlm._map_finish_reason (JStr (lit "Content_Filter")) = Ok (Some SAFETY)
  /\ OpenAILlm._map_finish_reason (Some (lit "eos")) = Some STOP
  /\ caseless (lit "LENGTH") (lit "length")
  /\ OpenAILlm._map_finish_reason (Some (lit "LENGTH")) = Some MAX_TOKENS
  /\ OpenAILlm._map_finish_reason (Some (lit "Length"))
     = OpenAILlm._map_finish_reason (Some (lit "lenGTH")).
Proof.
  pose proof (proj2 (proj2 finish_reason_mapper)) as H.
  split; [reflexivity|]. split; [|split; [|split; [|split; [|split]]]].
  - destruct (H (lit "STOP")) as (_ & _ & _ & Hs & _).
    apply Hs. reflexivity.
  - destruct (H (lit "Content_Filter")) as (Hq & _ & _ & _ & _ & Hc & _).
    exact (eq_trans Hq (f_equal Ok (Hc eq_refl))).
  - destruct (H (lit "eos")) as (_ & _ & _ & _ & _ & _ & Hd & _).
    apply Hd; [discriminate | reflexivity].
  - reflexivity.
  - destruct (H (lit "LENGTH"))
      as (_ & _ & _ & _ & _ & _ & _ & _ & _ & _ & _ & Hm & _).
    apply (proj2 Hm). reflexivity.
  - destruct (H (lit "Length")) as (_ & _ & _ & _ & _ & _ & _ & _ & Hc & _).
    apply Hc. reflexivity.
Defined.

(** ** The parameter builders *)

Lemma lookup_key (d : list (str * json)) (k : str) :
  lookup d k <> None -> In k (map fst d).
Proof.
  induction d as [|[k' v] d IH]; simpl; [congruence|].
  destruct (Py.eqb k' k) eqn:E.
  - apply eqb_eq in E. now left.
  - right. now apply IH.
Qed.

(** C9.  Both builders send [temperature] and [max_tokens] (and the
    OpenAI one [model]) besides the optional parameters: with the value of
    the configuration's attribute when it has one that is not [None], and
    with the default (0.7 and 2048 for Qwen, the adapter's own for OpenAI)
    when there is no configuration or it has no such attribute.  Each
    optional parameter ([top_p], [top_k], [repetition_penalty] for Qwen;
    [top_p], [frequency_penalty], [presence_penalty] for OpenAI) is in the
    payload, under that name and with the configuration's value, exactly
    when the configuration has it and it is not [None]; the payload has no
    other key, and an optional parameter is never sent as [None]. *)
Theorem optional_parameters_forwarded
    (self : OpenAILlm.OpenAILlm) (config : option Config) :
  let q := _convert_to_qwen_parameters config in
  let o := OpenAILlm._get_generation_parameters self config in
  ((forall v, given config temperature = Some v ->
      lookup q (lit "temperature") = Some v
      /\ lookup o (lit "temperature") = Some v)
   /\ (attribute config temperature = None ->
       lookup q (lit "temperature") = Some (JNum (NFloat 7 (-1)))
       /\ lookup o (lit "temperature")
          = Some (OpenAILlm._default_temperature self))
   /\ (forall v, given config max_output_tokens = Some v ->
       lookup q (lit "max_tokens") = Some v
       /\ lookup o (lit "max_tokens") = Some v)
   /\ (attribute config max_output_tokens = None ->
       lookup q (lit "max_tokens") = Some (JNum (NInt 2048))
       /\ lookup o (lit "max_tokens")
          = Some (OpenAILlm._default_max_tokens self))
   /\ lookup o (lit "model") = Some (JStr (OpenAILlm._model_name self)))
  /\ (lookup q (lit "top_p") = given config top_p
      /\ lookup q (lit "top_k") = given config top_k
      /\ lookup q (lit "repetition_penalty") = given config repetition_penalty
      /\ lookup o (lit "top_p") = given config top_p
      /\ lookup o (lit "frequency_penalty") = given config frequency_penalty
      /\ lookup o (lit "presence_penalty") = given config presence_penalty)
  /\ (forall k : str, lookup q k <> None ->
        In k [lit "temperature"; lit "max_tokens"; lit "top_p"; lit "top_k";
              lit "repetition_penalty"])
  /\ (forall k : str, lookup o k <> None ->
        In k [lit "model"; lit "temperature"; lit "max_tokens"; lit "top_p";
              lit "frequency_penalty"; lit "presence_penalty"])
  /\ (forall field, given config field <> Some JNull).
Proof.
  assert (Hnull : forall field, given config field <> Some JNull).
  { intros field. unfold given. destruct config as [c|]; [|discriminate].
    destruct (field c) as [[]|]; simpl; discriminate. }
  assert (Hfirst :
    lookup (_convert_to_qwen_parameters config) (lit "temperature")
    = Some (getattr config temperature (JNum (NFloat 7 (-1))))
    /\ lookup (_convert_to_qwen_parameters config) (lit "max_tokens")
       = Some (getattr config max_output_tokens (JNum (NInt 2048)))
    /\ lookup (OpenAILlm._get_generation_parameters self config) (lit "model")
       = Some (JStr (OpenAILlm._model_name self))
    /\ lookup (OpenAILlm._get_generation_parameters self config)
         (lit "temperature")
       = Some (getattr config temperature (OpenAILlm._default_temperature self))
    /\ lookup (OpenAILlm._get_generation_parameters self config)
         (lit "max_tokens")
       = Some (getattr config max_output_tokens
                 (OpenAILlm._default_max_tokens self))).
  { unfold _convert_to_qwen_parameters, OpenAILlm._get_generation_parameters,
      set_optional.
    destruct config as [c|]; [|repeat split].
    destruct (top_p c) as [v1|]; [destruct (is_none v1)|];
      destruct (top_k c) as [v2|]; try destruct (is_none v2);
      destruct (repetition_penalty c) as [v3|]; try destruct (is_none v3);
      destruct (frequency_penalty c) as [v4|]; try destruct (is_none v4);
      destruct (presence_penalty c) as [v5|]; try destruct (is_none v5);
      repeat split. }
  assert (Hgiven : forall field v default,
            given config field = Some v -> getattr config field default = v).
  { intros field v default. unfold given, getattr.
    destruct config as [c|]; [|discriminate].
    destruct (field c) as [w|]; [|discriminate].
    destruct (is_none w); [discriminate | congruence]. }
  assert (Habsent : forall field default,
            attribute config field = None ->
            getattr config field default = default).
  { intros field default. unfold attribute, getattr.
    destruct config as [c|]; [|reflexivity]. now intros ->. }
  destruct Hfirst as (Hqt & Hqm & Hom & Hot & Hox).
  cbv zeta. split; [|split; [|split; [|split; [|exact Hnull]]]].
  - split; [|split; [|split; [|split; [|exact Hom]]]].
    + intros v Hv. rewrite Hqt, Hot, !(Hgiven _ _ _ Hv). now split.
    + intros Ha. rewrite Hqt, Hot, !(Habsent _ _ Ha). now split.
    + intros v Hv. rewrite Hqm, Hox, !(Hgiven _ _ _ Hv). now split.
    + intros Ha. rewrite Hqm, Hox, !(Habsent _ _ Ha). now split.
  - unfold _convert_to_qwen_parameters, OpenAILlm._get_generation_parameters,
      set_optional, given.
    destruct config as [c|]; [|repeat split].
    destruct (top_p c) as [v1|]; [destruct (is_none v1)|];
      destruct (top_k c) as [v2|]; try destruct (is_none v2);
      destruct (repetition_penalty c) as [v3|]; try destruct (is_none v3);
      destruct (frequency_penalty c) as [v4|]; try destruct (is_none v4);
      destruct (presence_penalty c) as [v5|]; try destruct (is_none v5);
      repeat split.
  - intros k H. apply lookup_key in H. revert H.
    unfold _convert_to_qwen_parameters, set_optional.
    destruct config as [c|]; [|simpl; intuition].
    destruct (top_p c) as [v1|]; [destruct (is_none v1)|];
      destruct (top_k c) as [v2|]; try destruct (is_none v2);
      destruct (repetition_penalty c) as [v3|]; try destruct (is_none v3);
      simpl; intuition.
  - intros k H. apply lookup_key in H. revert H.
    unfold OpenAILlm._get_generation_parameters, set_optional.
    destruct config as [c|]; [|simpl; intuition].
    destruct (top_p c) as [v1|]; [destruct (is_none v1)|];
      destruct (frequency_penalty c) as [v4|]; try destruct (is_none v4);
      destruct (presence_penalty c) as [v5|]; try destruct (is_none v5);
      simpl; intuition.
Qed.

(** C9, as the specification has it, fails for [temperature] and
    [max_tokens]: the caller's configuration does not hold them, and they
    are sent with their defaults, both when there is no configuration and
    when the configuration has no such attributes. *)
Lemma absent_temperature_is_sent :
  let bare :=
    {| temperature := None; max_output_tokens := None;
       top_p := None; top_k := None; repetition_penalty := None;
       frequency_penalty := None; presence_penalty := None |} in
  given None temperature = None
  /\ given None max_output_tokens = None
  /\ _convert_to_qwen_parameters None
     = [(lit "temperature", JNum (NFloat 7 (-1)));
        (lit "max_tokens", JNum (NInt 2048))]
  /\ given (Some bare) temperature = None
  /\ _convert_to_qwen_parameters (Some bare)
     = [(lit "temperature", JNum (NFloat 7 (-1)));
        (lit "max_tokens", JNum (NInt 2048))].
Proof. repeat split. Qed.

(** A configuration whose [temperature] is [None], as one that was never
    set has it: the builders send [None], not the default that they name. *)
Lemma unset_temperature_is_sent_as_none :
  let unset :=
    {| temperature := Some JNull; max_output_tokens := Some JNull;
       top_p := Some JNull; top_k := Some JNull; repetition_penalty := None;
       frequency_penalty := Some JNull; presence_penalty := Some JNull |} in
  _convert_to_qwen_parameters (Some unset)
  = [(lit "temperature", JNull); (lit "max_tokens", JNull)].
Proof. reflexivity. Qed.

Lemma optional_parameters_forwarded_witness :
  let self :=
    {| OpenAILlm._model_name := lit "qwen2.5-72b-instruct";
       OpenAILlm._default_temperature := JNum (NFloat 7 (-1));
       OpenAILlm._default_max_tokens := JNum (NInt 2048) |} in
  let config :=
    Some {| temperature := Some (JNum (NFloat 2 (-1)));
            max_output_tokens := None;
            top_p := Some (JNum (NFloat 9 (-1))); top_k := Some JNull;
            repetition_penalty := None;
            frequency_penalty := Some JNull; presence_penalty := Some JNull |} in
  lookup (_convert_to_qwen_parameters config) (lit "top_p") <> None
  /\ In (lit "top_p")
       [lit "temperature"; lit "max_tokens"; lit "top_p"; lit "top_k";
        lit "repetition_penalty"]
  /\ lookup (OpenAILlm._get_generation_parameters self config) (lit "top_k")
     = None
  /\ lookup (_convert_to_qwen_parameters config) (lit "temperature")
     = Some (JNum (NFloat 2 (-1)))
  /\ lookup (_convert_to_qwen_parameters config) (lit "max_tokens")
     = Some (JNum (NInt 2048)).
Proof.
  intros self config.
  destruct (optional_parameters_forwarded self config)
    as ((Ht & _ & _ & Hm & _) & _ & Hq & _ & _).
  assert (H : lookup (_convert_to_qwen_parameters config) (lit "top_p") <> None)
    by discriminate.
  split; [exact H|]. split; [exact (Hq _ H)|]. split; [reflexivity|].
  split; [exact (proj1 (Ht _ eq_refl)) | exact (proj1 (Hm eq_refl))].
Defined.

(** ** The SSE framer *)

Lemma calls_numbered (g : Main.SSEGenerator)
    (schedule : list (nat * (str * str))) :
  map snd (fst (Main.calls g schedule))
  = numbered (Main.event_id g + 1) (map snd schedule)
  /\ snd (Main.calls g schedule)
     = {| Main.event_id := Main.event_id g + Z.of_nat (length schedule) |}.
Proof.
  revert g; induction schedule as [|[c [d t]] rest IH]; intros g.
  - simpl. rewrite Z.add_0_r. now destruct g.
  - cbn [Main.calls Main.generate_sse_event].
    specialize (IH {| Main.event_id := Main.event_id g + 1 |}).
    destruct (Main.calls _ rest) as [fs g']. cbn [fst snd Main.event_id] in *.
    destruct IH as [IH1 IH2]. split.
    + cbn [map snd numbered]. now rewrite IH1.
    + rewrite IH2. f_equal. cbn [length]. lia.
Qed.

Lemma calls_of_connection (c : nat) (g : Main.SSEGenerator)
    (schedule : list (nat * (str * str))) :
  frames_of c (fst (Main.calls g schedule))
  = framed (identifiers_of c (Main.event_id g + 1) schedule)
      (events_of c schedule).
Proof.
  revert g; induction schedule as [|[c' [d t]] rest IH]; intros g;
    [reflexivity|].
  cbn [Main.calls Main.generate_sse_event].
  specialize (IH {| Main.event_id := Main.event_id g + 1 |}).
  destruct (Main.calls _ rest) as [fs g']. cbn [fst Main.event_id] in *.
  unfold frames_of, events_of in *. cbn [filter identifiers_of fst].
  destruct (Nat.eqb c' c); cbn [map snd framed]; now rewrite IH.
Qed.

Lemma identifiers_length (c : nat) (first : Z)
    (schedule : list (nat * (str * str))) :
  length (identifiers_of c first schedule) = length (events_of c schedule).
Proof.
  revert first; induction schedule as [|[c' e] rest IH]; intros first;
    [reflexivity|].
  unfold events_of in *. cbn [identifiers_of filter fst].
  destruct (Nat.eqb c' c); cbn [map length]; now rewrite IH.
Qed.

Lemma identifiers_range (c : nat) (first : Z)
    (schedule : list (nat * (str * str))) :
  Forall (fun i => first <= i < first + Z.of_nat (length schedule))%Z
    (identifiers_of c first schedule).
Proof.
  revert first; induction schedule as [|[c' e] rest IH]; intros first;
    [constructor|].
  cbn [identifiers_of length].
  assert (H : Forall (fun i => first <= i < first + Z.of_nat (S (length rest)))%Z
                (identifiers_of c (first + 1) rest)).
  { eapply Forall_impl; [|apply IH]. cbv beta. intros i Hi. lia. }
  destruct (Nat.eqb c' c); [constructor; [lia | exact H] | exact H].
Qed.

Lemma identifiers_sorted (c : nat) (first : Z)
    (schedule : list (nat * (str * str))) :
  StronglySorted Z.lt (identifiers_of c first schedule).
Proof.
  revert first; induction schedule as [|[c' e] rest IH]; intros first;
    [constructor|].
  cbn [identifiers_of]. destruct (Nat.eqb c' c); [|apply IH].
  constructor; [apply IH|].
  eapply Forall_impl; [|apply (identifiers_range c (first + 1) rest)].
  cbv beta. intros i Hi. lia.
Qed.

Lemma identifiers_alone (c : nat) (first : Z)
    (before : list (nat * (str * str))) (events : list (str * str)) :
  Forall (fun x => fst x <> c) before ->
  framed (identifiers_of c first (before ++ map (pair c) events))
    (events_of c (before ++ map (pair c) events))
  = numbered (first + Z.of_nat (length before)) events.
Proof.
  intros H. revert first; induction H as [|[c' e] rest Hc _ IH]; intros first.
  - cbn [app length]. rewrite Z.add_0_r.
    revert first; induction events as [|[d t] events IH]; intros first;
      [reflexivity|].
    unfold events_of in *. cbn [map identifiers_of filter fst].
    rewrite Nat.eqb_refl. cbn [map snd framed numbered]. now rewrite IH.
  - cbn [app identifiers_of length]. unfold events_of in *. cbn [filter fst] in *.
    destruct (Nat.eqb c' c) eqn:E; [now apply Nat.eqb_eq in E|].
    rewrite IH. f_equal. lia.
Qed.

(** C5.  A call gives the frame the identifier after the generator's last
    and keeps it; so the frames that one generator produces carry, in the
    order of the calls, the identifiers that follow its last one, without a
    gap and without reuse, and those of the module's generator carry
    1, 2, ..., N.  The module has that one generator for every connection:
    the identifiers of the frames of one connection increase strictly and
    lie among those given out since, but it is the position of a call among
    all the calls that gives the identifier, so a connection gets
    consecutive identifiers only where no other connection calls in
    between, and a connection that alone calls after [k] frames starts at
    [k + 1]. *)
Theorem frame_ids_count_per_generator :
  (forall g dumped event_type,
     Main.generate_sse_event g dumped event_type
     = (Main.frame (Main.event_id g + 1) event_type dumped,
        {| Main.event_id := Main.event_id g + 1 |}))
  /\ (forall g schedule,
        map snd (fst (Main.calls g schedule))
        = numbered (Main.event_id g + 1) (map snd schedule)
        /\ snd (Main.calls g schedule)
           = {| Main.event_id :=
                  Main.event_id g + Z.of_nat (length schedule) |})
  /\ (forall schedule,
        map snd (fst (Main.calls Main.sse_generator schedule))
        = numbered 1 (map snd schedule))
  /\ (forall g schedule c,
        let ids := identifiers_of c (Main.event_id g + 1) schedule in
        frames_of c (fst (Main.calls g schedule))
        = framed ids (events_of c schedule)
        /\ length ids = length (events_of c schedule)
        /\ StronglySorted Z.lt ids
        /\ Forall (fun i => Main.event_id g < i
                            <= Main.event_id g + Z.of_nat (length schedule))%Z
             ids)
  /\ (forall g before events c,
        Forall (fun x => fst x <> c) before ->
        frames_of c (fst (Main.calls g (before ++ map (pair c) events)))
        = numbered (Main.event_id g + Z.of_nat (length before) + 1) events).
Proof.
  split; [reflexivity|]. split; [exact calls_numbered|].
  split; [intros schedule; apply calls_numbered|]. split.
  - intros g schedule c. cbv zeta.
    split; [apply calls_of_connection|].
    split; [apply identifiers_length|].
    split; [apply identifiers_sorted|].
    eapply Forall_impl; [|apply identifiers_range]. cbv beta. intros i Hi. lia.
  - intros g before events c H.
    rewrite calls_of_connection, (identifiers_alone _ _ _ _ H). f_equal. lia.
Qed.

(** C5, as the specification has it, fails: the counter is not scoped to a
    connection.  Of two connections that emit one event each, the second
    gets the identifier 2. *)
Lemma second_connection_does_not_start_at_1 :
  let event := (lit "{}", lit "message") in
  frames_of 1 (fst (Main.calls Main.sse_generator
                      [(0%nat, event); (1%nat, event)]))
  = numbered 2 [event]
  /\ numbered 2 [event] <> numbered 1 [event].
Proof. split; [reflexivity | vm_compute; discriminate]. Qed.

(** Two connections that are open together and emit in turn: the first gets
    the identifiers 1 and 3, the second 2 and 4. *)
Lemma interleaved_connections_skip_identifiers :
  let event := (lit "{}", lit "message") in
  let frames :=
    fst (Main.calls Main.sse_generator
           [(0%nat, event); (1%nat, event); (0%nat, event); (1%nat, event)]) in
  frames_of 0 frames = framed [1; 3]%Z [event; event]
  /\ frames_of 1 frames = framed [2; 4]%Z [event; event].
Proof. split; reflexivity. Qed.

(** ** One decoded unit *)

Section Units.
Import QwenLlm.

Lemma extract_shape_a (t : str) : extract (shape_a t) = Ok (JStr t, JNull).
Proof. reflexivity. Qed.

Lemma extract_usage_shape_a (t : str) : extract_usage (shape_a t) = Ok JNull.
Proof. reflexivity. Qed.

(** What [emit_increment] does on a [str]. *)
Lemma emit_increment_str (post : str -> str) (t acc : str) :
  emit_increment post (JStr t) acc
  = if nonempty t && startswith t acc
    then (fragment post (skipn (length acc) t), t, Ok tt)
    else ([], acc, Ok tt).
Proof.
  unfold emit_increment, gbind, lift, get_accumulated, set_accumulated,
    str_method, slice_from. cbn [truthy].
  destruct (nonempty t); [|reflexivity]. cbn [andb app].
  destruct (startswith t acc); [|reflexivity].
  rewrite Nat2Z.id. unfold fragment.
  destruct (nonempty (skipn (length acc) t)); reflexivity.
Qed.

Lemma sse_unit_shape_a (t acc : str) :
  sse_unit (shape_a t) acc
  = if nonempty t && startswith t acc
    then (fragment (fun x => x) (skipn (length acc) t), t, Ok tt)
    else ([], acc, Ok tt).
Proof.
  unfold sse_unit. unfold gbind at 1. unfold lift at 1.
  rewrite extract_shape_a. unfold gbind. rewrite emit_increment_str.
  destruct (nonempty t && startswith t acc); cbn [truthy gret app];
    rewrite ?app_nil_r; reflexivity.
Qed.

Lemma json_unit_shape_a (t acc : str) :
  json_unit (shape_a t) acc
  = if nonempty t && startswith t acc
    then (fragment Sanitizer._clean_markdown_json (skipn (length acc) t),
          t, Ok tt)
    else ([], acc, Ok tt).
Proof.
  unfold json_unit. unfold gbind at 1. unfold lift at 1.
  rewrite extract_shape_a. unfold gbind at 1. unfold lift at 1.
  rewrite extract_usage_shape_a. unfold gbind. rewrite emit_increment_str.
  destruct (nonempty t && startswith t acc); cbn [truthy gret app];
    rewrite ?app_nil_r; reflexivity.
Qed.

Lemma texts_fragment (post : str -> str) (t : str) :
  texts (fragment post t) = if nonempty t then [post t] else [].
Proof. unfold fragment. destruct (nonempty t); reflexivity. Qed.

Lemma texts_app (a b : list LlmResponse) : texts (a ++ b) = texts a ++ texts b.
Proof. unfold texts. now rewrite flat_map_app. Qed.

(** Two cumulative Shape A units, from an empty accumulated text. *)
Lemma two_units (post : str -> str) (body : json -> gen unit) (T1 T2 : str) :
  (forall t acc,
     body (shape_a t) acc
     = if nonempty t && startswith t acc
       then (fragment post (skipn (length acc) t), t, Ok tt)
       else ([], acc, Ok tt)) ->
  startswith T2 T1 = true ->
  run_units body [shape_a T1; shape_a T2] []
  = (fragment post T1 ++ fragment post (skipn (length T1) T2), T2, Ok tt).
Proof.
  intros Hbody H. cbn [run_units]. unfold gbind, gret. rewrite !Hbody.
  destruct T1 as [|c1 T1].
  - cbn [nonempty andb fragment length skipn app].
    rewrite Hbody. destruct T2 as [|c2 T2]; cbn [nonempty andb startswith].
    + reflexivity.
    + cbn [length skipn]. now rewrite app_nil_r.
  - cbn [nonempty andb startswith length skipn].
    rewrite Hbody. destruct T2 as [|c2 T2]; [discriminate|].
    cbn [nonempty andb]. rewrite H. now rewrite app_nil_r.
Qed.

End Units.

(** ** From the chunks to the units *)

Section Chunks.
Import QwenLlm.
Variable json_loads : str -> exc json.
Variable decode : list N -> str.

Lemma split1_line (l r : str) :
  existsb (fun c => N.eqb c nl) l = false ->
  split1 nl (l ++ nl :: r) = Some (l, r).
Proof.
  induction l as [|c l IH]; simpl; intros H; [reflexivity|].
  apply orb_false_iff in H as [H1 H2]. rewrite H1, (IH H2). reflexivity.
Qed.

Lemma gbind_lift_ok {A B} (a : A) (f : A -> gen B) (acc : str) :
  gbind (lift (Ok a)) f acc = f a acc.
Proof. unfold gbind, lift. now destruct (f a acc) as [[out acc'] r]. Qed.

(** Empty lines yield nothing and are used up. *)
Lemma sse_while_blank (blank fuel : nat) (acc : str) :
  (blank <= fuel)%nat ->
  sse_while json_loads fuel (repeat nl blank) acc = ([], acc, Ok []).
Proof.
  revert fuel; induction blank as [|blank IH]; intros fuel H.
  - destruct fuel; reflexivity.
  - destruct fuel as [|fuel]; [lia|]. cbn [repeat sse_while split1].
    rewrite N.eqb_refl. apply IH. lia.
Qed.

Lemma sse_while_line (fuel blank : nat) (d acc : str) (u : json) :
  (blank <= fuel)%nat ->
  existsb (fun c => N.eqb c nl) d = false ->
  strip (lit "data: " ++ d) = lit "data: " ++ d ->
  Py.eqb d (lit "[DONE]") = false ->
  json_loads d = Ok u ->
  sse_while json_loads (S fuel) (lit "data: " ++ d ++ nl :: repeat nl blank) acc
  = let '(out, acc', r) := except_decode (sse_unit u) acc in
    (out, acc', match r with Ok _ => Ok [] | Raise e => Raise e end).
Proof.
  intros Hfuel Hnl Hstrip Hdone Hloads. cbn [sse_while].
  unfold str, char in *.
  rewrite app_assoc, split1_line.
  2: { rewrite existsb_app, Hnl. reflexivity. }
  cbv beta iota. rewrite Hstrip.
  change (nonempty (lit "data: " ++ d)) with true.
  rewrite startswith_app. cbn [negb].
  change (slice_from (lit "data: " ++ d) 6) with d.
  rewrite Hdone, Hloads. unfold gbind at 1. unfold except_decode.
  rewrite gbind_lift_ok.
  destruct (sse_unit u acc) as [[out acc'] [[]|[]]];
    rewrite ?sse_while_blank, ?app_nil_r by exact Hfuel; reflexivity.
Qed.

Lemma sse_chunk_line (chunk : list N) (u : json) (acc : str) :
  sse_line json_loads decode chunk u ->
  sse_chunk json_loads decode [] chunk acc
  = let '(out, acc', r) := except_decode (sse_unit u) acc in
    (out, acc', match r with Ok _ => Ok [] | Raise e => Raise e end).
Proof.
  intros (Hc & d & blank & Hd & Hnl & Hstrip & Hdone & Hloads).
  unfold sse_chunk. destruct chunk as [|x chunk]; [contradiction|].
  rewrite Hd. cbn [app].
  replace (length (lit "data: " ++ d ++ nl :: repeat nl blank))
    with (S (5 + length d + S blank)).
  - apply sse_while_line; [lia | assumption..].
  - rewrite !length_app. cbn [length]. rewrite repeat_length.
    change (length (lit "data: ")) with 6%nat. lia.
Qed.

Lemma run_chunks_of_lines (chunks : list (list N)) (units : list json) :
  Forall2 (sse_line json_loads decode) chunks units ->
  forall acc,
    run_chunks (sse_chunk json_loads decode) [] chunks acc = sse_units units acc.
Proof.
  induction 1 as [|c u chunks units Hl _ IH]; intros acc; [reflexivity|].
  unfold sse_units in *.
  cbn [run_chunks run_units]. unfold gbind.
  rewrite (sse_chunk_line _ _ acc Hl).
  destruct (except_decode (sse_unit u) acc) as [[out acc'] [[]|e]];
    [|reflexivity].
  now rewrite IH.
Qed.

(** A stream of SSE events, one to a chunk, is processed as the list of
    its units. *)
Lemma sse_stream_of_lines (chunks : list (list N)) (units : list json) :
  Forall2 (sse_line json_loads decode) chunks units ->
  _process_sse_stream json_loads decode chunks = ended (sse_units units []).
Proof.
  intros H. unfold _process_sse_stream. now rewrite (run_chunks_of_lines _ _ H).
Qed.

Lemma json_chunk_document (chunk : list N) (u : json) (acc : str) :
  json_document json_loads decode chunk u ->
  json_chunk json_loads decode [] chunk acc
  = let '(out, acc', _) := except_all (json_unit u) acc in (out, acc', Ok []).
Proof.
  intros (Hc & Hse & Hrest & Hloads).
  unfold json_chunk. destruct chunk as [|x chunk]; [contradiction|].
  cbn [app].
  replace (negb (find (decode (x :: chunk)) (lit "{") =? -1)%Z
           && negb (rfind (decode (x :: chunk)) (lit "}") =? -1)%Z
           && (rfind (decode (x :: chunk)) (lit "}")
               >? find (decode (x :: chunk)) (lit "{"))%Z) with true.
  2: { symmetry.
       rewrite !andb_true_iff, !negb_true_iff, !Z.eqb_neq, Z.gtb_ltb, Z.ltb_lt.
       lia. }
  rewrite Hrest, Hloads. unfold gbind at 1. unfold except_all.
  rewrite gbind_lift_ok.
  destruct (json_unit u acc) as [[out acc'] [[]|e]];
    cbn [gret]; now rewrite app_nil_r.
Qed.

Lemma run_chunks_of_documents (chunks : list (list N)) (units : list json) :
  Forall2 (json_document json_loads decode) chunks units ->
  forall acc,
    run_chunks (json_chunk json_loads decode) [] chunks acc
    = json_units units acc.
Proof.
  induction 1 as [|c u chunks units Hl _ IH]; intros acc; [reflexivity|].
  unfold json_units in *.
  cbn [run_chunks run_units]. unfold gbind.
  rewrite (json_chunk_document _ _ acc Hl).
  destruct (except_all (json_unit u) acc) as [[out acc'] [[]|e]] eqn:E.
  - now rewrite IH.
  - exfalso. unfold except_all in E.
    destruct (json_unit u acc) as [[o a] [[]|e']]; discriminate.
Qed.

(** A stream of JSON documents, one to a chunk, is processed as the list
    of its units. *)
Lemma json_stream_of_documents (chunks : list (list N)) (units : list json) :
  Forall2 (json_document json_loads decode) chunks units ->
  _process_json_stream json_loads decode chunks = ended (json_units units []).
Proof.
  intros H. unfold _process_json_stream.
  now rewrite (run_chunks_of_documents _ _ H).
Qed.

End Chunks.

(** C1.  Two Shape A units with the texts [T1] and then [T2], where [T2]
    starts with [T1], from an empty accumulated text.  The SSE processor
    yields the fragments [T1] and the rest of [T2] after [T1], each one if
    it is not empty, so the texts yielded make up [T2].  The JSON processor
    yields the same two fragments after the sanitizer has been applied to
    each of them.  Both leave [T2] as the accumulated text.  The same holds
    for the two generators when each unit arrives as one chunk. *)
Theorem cumulative_units_yield_increments (T1 T2 : str) :
  startswith T2 T1 = true ->
  let rest := skipn (length T1) T2 in
  let fragments post := fragment post T1 ++ fragment post rest in
  QwenLlm.sse_units [shape_a T1; shape_a T2] []
  = (fragments (fun t => t), T2, Ok tt)
  /\ concat (texts (fragments (fun t => t))) = T2
  /\ QwenLlm.json_units [shape_a T1; shape_a T2] []
     = (fragments Sanitizer._clean_markdown_json, T2, Ok tt)
  /\ (forall json_loads decode c1 c2,
        sse_line json_loads decode c1 (shape_a T1) ->
        sse_line json_loads decode c2 (shape_a T2) ->
        QwenLlm._process_sse_stream json_loads decode [c1; c2]
        = (fragments (fun t => t), None))
  /\ (forall json_loads decode c1 c2,
        json_document json_loads decode c1 (shape_a T1) ->
        json_document json_loads decode c2 (shape_a T2) ->
        QwenLlm._process_json_stream json_loads decode [c1; c2]
        = (fragments Sanitizer._clean_markdown_json, None)).
Proof.
  intros H rest fragments.
  assert (Hsse : QwenLlm.sse_units [shape_a T1; shape_a T2] []
                 = (fragments (fun t => t), T2, Ok tt)).
  { apply two_units; [|exact H]. intros t acc.
    unfold except_decode. rewrite sse_unit_shape_a.
    now destruct (nonempty t && startswith t acc). }
  assert (Hjson : QwenLlm.json_units [shape_a T1; shape_a T2] []
                  = (fragments Sanitizer._clean_markdown_json, T2, Ok tt)).
  { apply two_units; [|exact H]. intros t acc.
    unfold except_all. rewrite json_unit_shape_a.
    now destruct (nonempty t && startswith t acc). }
  split; [exact Hsse|]. split; [|split; [exact Hjson|split]].
  - subst fragments. cbv beta.
    pose proof (startswith_split _ _ H) as E. fold rest in E.
    clearbody rest. rewrite E, texts_app, !texts_fragment, concat_app.
    destruct T1, rest; simpl; now rewrite ?app_nil_r.
  - intros json_loads decode c1 c2 H1 H2.
    rewrite (sse_stream_of_lines json_loads decode [c1; c2]
               [shape_a T1; shape_a T2])
      by (repeat (constructor; try assumption)).
    now rewrite Hsse.
  - intros json_loads decode c1 c2 H1 H2.
    rewrite (json_stream_of_documents json_loads decode [c1; c2]
               [shape_a T1; shape_a T2])
      by (repeat (constructor; try assumption)).
    now rewrite Hjson.
Qed.

Lemma cumulative_units_yield_increments_witness :
  let c1 := lit "data: " ++ shape_a_text (lit "Hel") ++ [nl; nl] in
  let c2 := lit "data: " ++ shape_a_text (lit "Hello") ++ [nl; nl] in
  startswith (lit "Hello") (lit "Hel") = true
  /\ sse_line JsonRef.loads JsonRef.decode_ascii c1 (shape_a (lit "Hel"))
  /\ sse_line JsonRef.loads JsonRef.decode_ascii c2 (shape_a (lit "Hello"))
  /\ QwenLlm._process_sse_stream JsonRef.loads JsonRef.decode_ascii [c1; c2]
     = ([text_response (lit "Hel"); text_response (lit "lo")], None).
Proof.
  intros c1 c2.
  assert (H1 : sse_line JsonRef.loads JsonRef.decode_ascii c1
                 (shape_a (lit "Hel"))).
  { split; [discriminate|]. exists (shape_a_text (lit "Hel")), 1%nat.
    repeat split; vm_compute; reflexivity. }
  assert (H2 : sse_line JsonRef.loads JsonRef.decode_ascii c2
                 (shape_a (lit "Hello"))).
  { split; [discriminate|]. exists (shape_a_text (lit "Hello")), 1%nat.
    repeat split; vm_compute; reflexivity. }
  split; [reflexivity|]. split; [exact H1|]. split; [exact H2|].
  destruct (cumulative_units_yield_increments (lit "Hel") (lit "Hello") eq_refl)
    as (_ & _ & _ & Hs & _).
  exact (Hs JsonRef.loads JsonRef.decode_ascii c1 c2 H1 H2).
Defined.

(** C1, as the specification has it, fails on the JSON processor: the
    fragments it yields for ["Hello "] and then ["Hello world"] are
    ["Hello"] and ["world"], which do not make up the second text. *)
Lemma sanitized_increments_do_not_add_up :
  let T1 := lit "Hello " in
  let T2 := lit "Hello world" in
  let out :=
    fst (QwenLlm._process_json_stream JsonRef.loads JsonRef.decode_ascii
           [shape_a_text T1; shape_a_text T2]) in
  startswith T2 T1 = true
  /\ JsonRef.loads (shape_a_text T1) = Ok (shape_a T1)
  /\ JsonRef.loads (shape_a_text T2) = Ok (shape_a T2)
  /\ out = fst (fst (QwenLlm.json_units [shape_a T1; shape_a T2] []))
  /\ texts out = [lit "Hello"; lit "world"]
  /\ concat (texts out) <> T2.
Proof.
  repeat split; try (vm_compute; reflexivity). vm_compute. discriminate.
Qed.

(** C2.  What the processors do with a unit whose text is not empty and
    does not start with the accumulated text: they yield no text for it and
    leave the accumulated text as it was, so the text of the unit is lost.
    The specification asks for the whole text to be yielded and appended. *)
Theorem fresh_text_is_dropped (data f : json) (t acc : str) :
  QwenLlm.extract data = Ok (JStr t, f) ->
  t <> [] ->
  startswith t acc = false ->
  (texts (fst (fst (QwenLlm.sse_unit data acc))) = []
   /\ snd (fst (QwenLlm.sse_unit data acc)) = acc)
  /\ (texts (fst (fst (QwenLlm.json_unit data acc))) = []
      /\ snd (fst (QwenLlm.json_unit data acc)) = acc).
Proof.
  intros He Ht Hs.
  assert (Hsse : exists out r,
             QwenLlm.sse_unit data acc = (out, acc, r) /\ texts out = []).
  { unfold QwenLlm.sse_unit. unfold gbind at 1. unfold lift at 1.
    rewrite He. unfold gbind at 1. rewrite emit_increment_str, Hs, andb_false_r.
    cbn [app]. unfold gbind, lift, yield, gret.
    destruct (truthy f); [|now eexists _, _].
    destruct (QwenLlm._map_finish_reason f); now eexists _, _. }
  assert (Hjson : exists out r,
             QwenLlm.json_unit data acc = (out, acc, r) /\ texts out = []).
  { unfold QwenLlm.json_unit. unfold gbind at 1. unfold lift at 1.
    rewrite He. unfold gbind at 1. unfold lift at 1.
    destruct (QwenLlm.extract_usage data) as [u|e]; [|now eexists _, _].
    unfold gbind at 1. rewrite emit_increment_str, Hs, andb_false_r.
    cbn [app]. unfold gbind, lift, yield, gret.
    destruct (truthy f); [|now eexists _, _].
    destruct (QwenLlm._map_finish_reason f); [|now eexists _, _].
    cbn [app]. destruct (truthy u); [|now eexists _, _].
    destruct (py_get u (lit "input_tokens") _); [|now eexists _, _].
    cbn [bind].
    destruct (py_get u (lit "total_tokens") _); now eexists _, _. }
  destruct Hsse as (o1 & r1 & -> & H1), Hjson as (o2 & r2 & -> & H2).
  now repeat split.
Qed.

(** Two incremental units of the streaming Shape B, ["Hel"] and then
    ["lo"]: the second one yields nothing. *)
Lemma fresh_text_is_dropped_witness :
  QwenLlm.extract (shape_b_delta (lit "lo")) = Ok (JStr (lit "lo"), JNull)
  /\ lit "lo" <> []
  /\ startswith (lit "lo") (lit "Hel") = false
  /\ QwenLlm.sse_units [shape_b_delta (lit "Hel")] []
     = ([text_response (lit "Hel")], lit "Hel", Ok tt)
  /\ texts (fst (fst (QwenLlm.sse_unit (shape_b_delta (lit "lo")) (lit "Hel"))))
     = []
  /\ snd (fst (QwenLlm.sse_unit (shape_b_delta (lit "lo")) (lit "Hel")))
     = lit "Hel".
Proof.
  assert (Hne : lit "lo" <> []) by discriminate.
  split; [reflexivity|]. split; [exact Hne|]. split; [reflexivity|].
  split; [reflexivity|].
  exact (proj1 (fresh_text_is_dropped (shape_b_delta (lit "lo")) JNull
                  (lit "lo") (lit "Hel") eq_refl Hne eq_refl)).
Defined.

(** The same on the stream: of the two events only the first yields a
    response. *)
Lemma incremental_deltas_are_lost :
  QwenLlm._process_sse_stream JsonRef.loads JsonRef.decode_ascii
    [sse_event (shape_b_delta_text (lit "Hel"));
     sse_event (shape_b_delta_text (lit "lo"))]
  = ([text_response (lit "Hel")], None).
Proof. vm_compute. reflexivity. Qed.

(** ** The shapes of the responses *)

Section Shapes.
Import QwenLlm.
Variable P : LlmResponse -> Prop.

Lemma yields_gret {A} (a : A) : yields P (gret a).
Proof. intros acc. constructor. Qed.

Lemma yields_lift {A} (m : exc A) : yields P (lift m).
Proof. intros acc. constructor. Qed.

Lemma yields_yield (r : LlmResponse) : P r -> yields P (yield r).
Proof. intros H acc. now repeat constructor. Qed.

Lemma yields_gbind {A B} (m : gen A) (f : A -> gen B) :
  yields P m -> (forall a, yields P (f a)) -> yields P (gbind m f).
Proof.
  intros Hm Hf acc. unfold gbind. specialize (Hm acc).
  destruct (m acc) as [[out acc'] [a|e]]; [|exact Hm].
  specialize (Hf a acc'). destruct (f a acc') as [[out' acc''] r].
  simpl in *. now apply Forall_app.
Qed.

Lemma yields_except_decode (m : gen unit) :
  yields P m -> yields P (except_decode m).
Proof.
  intros Hm acc. unfold except_decode. specialize (Hm acc).
  destruct (m acc) as [[out acc'] [a|[]]]; exact Hm.
Qed.

Lemma yields_except_all (m : gen unit) : yields P m -> yields P (except_all m).
Proof.
  intros Hm acc. unfold except_all. specialize (Hm acc).
  destruct (m acc) as [[out acc'] [a|e]]; exact Hm.
Qed.

Lemma yields_emit_increment (post : str -> str) (v : json) :
  (forall t, t <> [] -> P (text_response (post t))) ->
  yields P (emit_increment post v).
Proof.
  intros H. unfold emit_increment.
  destruct (truthy v); [|apply yields_gret].
  apply yields_gbind; [apply yields_lift|]. intros current.
  apply yields_gbind; [intros acc; constructor|]. intros accumulated_text.
  destruct (startswith _ _); [|apply yields_gret].
  apply yields_gbind; [intros acc; constructor|]. intros _.
  destruct (nonempty _) eqn:E; [|apply yields_gret].
  apply yields_yield, H. intros E'. now rewrite E' in E.
Qed.

Lemma map_finish_reason_truthy (v : json) (r : option FinishReason) :
  truthy v = true -> _map_finish_reason v = Ok r -> exists fr, r = Some fr.
Proof.
  unfold _map_finish_reason. intros ->. cbn [negb].
  destruct v; simpl; try discriminate.
  intros H. injection H as <-. eauto.
Qed.

Hypothesis P_complete : forall r, complete_shape r -> P r.

Lemma yields_gbind_lift {A B} (m : exc A) (f : A -> gen B) :
  (forall a, m = Ok a -> yields P (f a)) -> yields P (gbind (lift m) f).
Proof.
  intros H acc. unfold gbind, lift. destruct m as [a|e]; [|constructor].
  specialize (H a eq_refl acc). now destruct (f a acc) as [[out acc'] r].
Qed.

Lemma yields_finish (v : json) (usage : gen (option UsageMetadata)) :
  yields P usage ->
  yields P (if truthy v then
              (finish_reason <- lift (_map_finish_reason v) ;;
               usage_metadata <- usage ;;
               yield (final_response finish_reason usage_metadata))%gen
            else gret tt).
Proof.
  intros Hu. destruct (truthy v) eqn:E; [|apply yields_gret].
  apply yields_gbind_lift. intros r Er.
  destruct (map_finish_reason_truthy _ _ E Er) as [fr ->].
  apply yields_gbind; [exact Hu|]. intros u.
  apply yields_yield, P_complete. now exists fr, u.
Qed.

Lemma yields_sse_unit (data : json) :
  (forall t, t <> [] -> P (text_response t)) -> yields P (sse_unit data).
Proof.
  intros H. unfold sse_unit.
  apply yields_gbind; [apply yields_lift|]. intros [current_text fr].
  apply yields_gbind; [now apply yields_emit_increment|]. intros _.
  destruct (truthy fr) eqn:E; [|apply yields_gret].
  apply yields_gbind_lift. intros r Er.
  destruct (map_finish_reason_truthy _ _ E Er) as [r' ->].
  apply yields_yield, P_complete. now eexists _, _.
Qed.

Lemma yields_json_unit (data : json) :
  (forall t, P (text_response t)) -> yields P (json_unit data).
Proof.
  intros H. unfold json_unit.
  apply yields_gbind; [apply yields_lift|]. intros [current_text fr].
  apply yields_gbind; [apply yields_lift|]. intros usage_data.
  apply yields_gbind; [apply yields_emit_increment; intros; apply H|].
  intros _. apply yields_finish, yields_lift.
Qed.

Variable json_loads : str -> exc json.
Variable decode : list N -> str.

Lemma yields_sse_while (fuel : nat) (buffer : str) :
  (forall t, t <> [] -> P (text_response t)) ->
  yields P (sse_while json_loads fuel buffer).
Proof.
  intros H. revert buffer; induction fuel as [|fuel IH]; intros buffer;
    cbn [sse_while]; [apply yields_gret|].
  destruct (split1 nl buffer) as [[line rest]|]; [|apply yields_gret].
  destruct (nonempty (strip line)); cbn [negb]; [|apply IH].
  destruct (startswith _ _); [|apply IH].
  destruct (Py.eqb _ _); [apply yields_gret|].
  apply yields_gbind; [|intros _; apply IH].
  apply yields_except_decode, yields_gbind; [apply yields_lift|].
  intros data. now apply yields_sse_unit.
Qed.

Lemma yields_run_chunks (step : str -> list N -> gen str) :
  (forall buffer chunk, yields P (step buffer chunk)) ->
  forall chunks buffer, yields P (run_chunks step buffer chunks).
Proof.
  intros H chunks. induction chunks as [|c rest IH]; intros buffer; simpl.
  - apply yields_gret.
  - apply yields_gbind; [apply H | intros b; apply IH].
Qed.

Lemma yields_process_sse (chunks : list (list N)) :
  (forall t, t <> [] -> P (text_response t)) ->
  Forall P (fst (_process_sse_stream json_loads decode chunks)).
Proof.
  intros H. unfold _process_sse_stream.
  pose proof (yields_run_chunks (sse_chunk json_loads decode)) as Hr.
  specialize (Hr (fun buffer chunk =>
    match chunk as c return yields P (sse_chunk json_loads decode buffer c) with
    | [] => yields_gret buffer
    | _ :: _ => yields_sse_while _ _ H
    end) chunks [] []).
  destruct (run_chunks _ _ _ _) as [[out acc] [a|e]]; exact Hr.
Qed.

Lemma yields_process_json (chunks : list (list N)) :
  (forall t, P (text_response t)) ->
  Forall P (fst (_process_json_stream json_loads decode chunks)).
Proof.
  intros H. unfold _process_json_stream.
  assert (Hstep : forall buffer chunk,
            yields P (json_chunk json_loads decode buffer chunk)).
  { intros buffer [|b chunk]; [apply yields_gret|]. unfold json_chunk.
    destruct (_ && _); [|apply yields_gret].
    apply yields_gbind; [|intros _; apply yields_gret].
    apply yields_except_all, yields_gbind; [apply yields_lift|].
    intros data. now apply yields_json_unit. }
  pose proof (yields_run_chunks _ Hstep chunks [] []) as Hr.
  destruct (run_chunks _ _ _ _) as [[out acc] [a|e]]; exact Hr.
Qed.

End Shapes.

Lemma shapes_not_both (r : LlmResponse) :
  delta_shape r \/ complete_shape r \/ empty_shape r -> not_both r.
Proof. intros [[t ->]|[(fr & u & ->)| ->]]; reflexivity. Qed.

Lemma parse_openai_chunk_shape (chunk : OpenAILlm.ChatCompletionChunk) :
  nonempty_delta (OpenAILlm._parse_openai_chunk chunk)
  \/ complete_shape (OpenAILlm._parse_openai_chunk chunk)
  \/ empty_shape (OpenAILlm._parse_openai_chunk chunk).
Proof.
  unfold OpenAILlm._parse_openai_chunk.
  destruct (OpenAILlm.choices chunk) as [|[[text] reason] rest].
  - right; right. reflexivity.
  - cbn [OpenAILlm.delta OpenAILlm.delta_content
           OpenAILlm.choice_finish_reason].
    destruct text as [[|c t]|]; cbn [nonempty].
    2: { left. exists (c :: t). now split. }
    all: destruct reason as [[|c r]|]; cbn [nonempty];
      try (right; right; reflexivity);
      right; left; now eexists _, _.
Qed.

(** C10.  The responses of the processors have these shapes.  On the SSE
    path a response is a text delta with a text that is not empty and no
    finish reason, or a completion with a finish reason and no content.  On
    the JSON path it is a text delta or such a completion.  The OpenAI
    stream yields, besides text deltas that are not empty and completions,
    responses with neither content nor finish reason.  No response of the
    three carries both a content and a finish reason. *)
Theorem streamed_response_shapes :
  (forall json_loads decode chunks,
     Forall (fun r => (nonempty_delta r \/ complete_shape r) /\ not_both r)
       (fst (QwenLlm._process_sse_stream json_loads decode chunks)))
  /\ (forall json_loads decode chunks,
        Forall (fun r => (delta_shape r \/ complete_shape r) /\ not_both r)
          (fst (QwenLlm._process_json_stream json_loads decode chunks)))
  /\ (forall stream_response,
        Forall (fun r => (nonempty_delta r \/ complete_shape r \/ empty_shape r)
                         /\ not_both r)
          (OpenAILlm.generate_content_stream stream_response)).
Proof.
  split; [|split].
  - intros json_loads decode chunks. apply yields_process_sse.
    + intros r H. split; [now right | apply shapes_not_both; tauto].
    + intros t Ht. split; [left; now exists t | reflexivity].
  - intros json_loads decode chunks. apply yields_process_json.
    + intros r H. split; [now right | apply shapes_not_both; tauto].
    + intros t. split; [left; now exists t | reflexivity].
  - intros stream_response. unfold OpenAILlm.generate_content_stream.
    apply Forall_app. split.
    + apply Forall_map, Forall_forall. intros chunk _.
      pose proof (parse_openai_chunk_shape chunk) as H.
      split; [exact H|]. apply shapes_not_both.
      destruct H as [(t & _ & ->)|H]; [left; now exists t | now right].
    + apply Forall_cons; [|constructor].
      split; [right; left; now eexists _, _ | reflexivity].
Qed.

(** C10, as the specification has it, fails: for a chunk without choices
    the OpenAI stream yields a response that has neither of the two
    shapes. *)
Lemma openai_stream_yields_empty_response :
  let chunk := {| OpenAILlm.choices := [] |} in
  OpenAILlm.generate_content_stream [chunk]
  = [final_response None None; final_response (Some STOP) None]
  /\ ~ (nonempty_delta (final_response None None)
        \/ complete_shape (final_response None None)).
Proof.
  split; [reflexivity|].
  intros [(t & _ & H)|(fr & u & H)]; discriminate.
Qed.

(** ** Completions *)

(** C4.  A stream of the client library that ends, as the vendor's streams
    do, with a chunk that carries the finish reason: the adapter yields a
    completion for that chunk and another one after the stream, two in all.
    On the SSE path a unit that follows a unit with a finish reason is
    processed as any other, so a completion need not be the last response,
    and each unit with a finish reason yields its own completion. *)
Theorem more_than_one_completion :
  let openai :=
    OpenAILlm.generate_content_stream
      [openai_chunk (Some (lit "Hi")) None;
       openai_chunk None (Some (lit "stop"))] in
  let finished := shape_a_finish_text (lit "Hi") (lit "stop") in
  openai
  = [text_response (lit "Hi"); final_response (Some STOP) None;
     final_response (Some STOP) None]
  /\ length (filter is_complete openai) = 2%nat
  /\ QwenLlm._process_sse_stream JsonRef.loads JsonRef.decode_ascii
       [sse_event finished; sse_event (shape_a_text (lit "Hi there"))]
     = ([text_response (lit "Hi"); final_response (Some STOP) None;
         text_response (lit " there")], None)
  /\ QwenLlm._process_sse_stream JsonRef.loads JsonRef.decode_ascii
       [sse_event finished; sse_event finished]
     = ([text_response (lit "Hi"); final_response (Some STOP) None;
         final_response (Some STOP) None], None)
  /\ QwenLlm.sse_units
       [shape_a_finish (lit "Hi") (lit "stop"); shape_a (lit "Hi there")] []
     = ([text_response (lit "Hi"); final_response (Some STOP) None;
         text_response (lit " there")], lit "Hi there", Ok tt).
Proof. repeat split; vm_compute; reflexivity. Qed.

(** The OpenAI stream always has one completion more than the chunks that
    carry a finish reason and no text. *)
Lemma openai_completions (stream_response : list OpenAILlm.ChatCompletionChunk) :
  length (filter is_complete (OpenAILlm.generate_content_stream stream_response))
  = S (length (filter is_complete
                 (map OpenAILlm._parse_openai_chunk stream_response))).
Proof.
  unfold OpenAILlm.generate_content_stream.
  rewrite filter_app, length_app. simpl. lia.
Qed.

(** ** The framing disciplines *)

Lemma find_nil (sub : str) : sub <> [] -> find [] sub = (-1)%Z.
Proof. destruct sub; [contradiction | reflexivity]. Qed.

(** C3.  A step of the JSON processor in which the span from the first
    opening brace to the last closing brace does not parse: the span, with
    what came before it, has been cut off the buffer before the parser
    runs, and the handler goes on with the next chunk, so the buffer that
    the step leaves is what followed the last closing brace.  The
    specification asks for the buffer to be left as it was. *)
Theorem unparsed_span_is_dropped
    (json_loads : str -> exc json) (decode : list N -> str)
    (buffer acc : str) (chunk : list N) (e : exn) :
  let b := buffer ++ decode chunk in
  let start := find b (lit "{") in
  let end_ := rfind b (lit "}") in
  chunk <> [] ->
  (0 <= start < end_)%Z ->
  json_loads (slice b start (end_ + 1)) = Raise e ->
  QwenLlm.json_chunk json_loads decode buffer chunk acc
  = ([], acc, Ok (slice_from b (end_ + 1)))
  /\ slice_from b (end_ + 1) <> b.
Proof.
  intros b start end_ Hc Hse Hl. split.
  - unfold QwenLlm.json_chunk. destruct chunk as [|x chunk]; [contradiction|].
    fold b. fold start. fold end_.
    replace (negb (start =? -1)%Z && negb (end_ =? -1)%Z && (end_ >? start)%Z)
      with true.
    + unfold gbind, except_all, lift, gret. now rewrite Hl.
    + symmetry. rewrite !andb_true_iff, !negb_true_iff, !Z.eqb_neq, Z.gtb_ltb,
        Z.ltb_lt. lia.
  - intros H. apply (f_equal (@length _)) in H. unfold slice_from in H.
    rewrite length_skipn in H.
    assert (b <> []).
    { intros Hb. subst start. rewrite Hb, find_nil in Hse by discriminate. lia. }
    destruct b; [contradiction|]. simpl length in H. lia.
Qed.

(** The text [{"output":{"text":"Hi"}}] arrives without its last brace. *)
Lemma unparsed_span_is_dropped_witness :
  let chunk := removelast (shape_a_text (lit "Hi")) in
  chunk <> []
  /\ (0 <= find chunk (lit "{") < rfind chunk (lit "}"))%Z
  /\ QwenLlm.json_chunk JsonRef.loads JsonRef.decode_ascii [] chunk []
     = ([], [], Ok []).
Proof.
  intros chunk.
  assert (H1 : chunk <> []) by discriminate.
  assert (H2 : (0 <= find ([] ++ JsonRef.decode_ascii chunk) (lit "{")
                < rfind ([] ++ JsonRef.decode_ascii chunk) (lit "}"))%Z)
    by (vm_compute; split; [discriminate | reflexivity]).
  split; [exact H1|]. split; [exact H2|].
  exact (proj1 (unparsed_span_is_dropped JsonRef.loads JsonRef.decode_ascii
                  [] [] chunk JSONDecodeError H1 H2 eq_refl)).
Defined.

(** The unit is lost for good when its last brace arrives, although the
    same bytes in one chunk give its text. *)
Lemma split_unit_is_lost :
  let whole := shape_a_text (lit "Hi") in
  QwenLlm._process_json_stream JsonRef.loads JsonRef.decode_ascii
    [removelast whole; lit "}"] = ([], None)
  /\ QwenLlm._process_json_stream JsonRef.loads JsonRef.decode_ascii [whole]
     = ([text_response (lit "Hi")], None).
Proof. split; vm_compute; reflexivity. Qed.

(** Whatever the decoders: a chunk whose first line is [data: [DONE]]
    yields nothing and leaves the rest of its text in the buffer, and the
    processor goes on from there with the chunks that follow. *)
Lemma sse_chunk_done
    (json_loads : str -> exc json) (decode : list N -> str)
    (chunk : list N) (rest acc : str) :
  chunk <> [] ->
  decode chunk = lit "data: [DONE]" ++ [nl] ++ rest ->
  QwenLlm.sse_chunk json_loads decode [] chunk acc = ([], acc, Ok rest).
Proof.
  intros Hc Hd. unfold QwenLlm.sse_chunk.
  destruct chunk as [|x chunk]; [contradiction|].
  rewrite Hd. reflexivity.
Qed.

Lemma done_keeps_the_rest
    (json_loads : str -> exc json) (decode : list N -> str)
    (chunk : list N) (rest : str) (chunks : list (list N)) (acc : str) :
  chunk <> [] ->
  decode chunk = lit "data: [DONE]" ++ [nl] ++ rest ->
  QwenLlm.run_chunks (QwenLlm.sse_chunk json_loads decode) [] (chunk :: chunks) acc
  = QwenLlm.run_chunks (QwenLlm.sse_chunk json_loads decode) rest chunks acc.
Proof.
  intros Hc Hd. cbn [QwenLlm.run_chunks]. unfold gbind at 1.
  rewrite (sse_chunk_done _ _ _ rest acc Hc Hd).
  destruct (QwenLlm.run_chunks _ rest chunks acc) as [[out acc'] r].
  reflexivity.
Qed.

(** C7.  The line [data: [DONE]] only ends the handling of the chunk that
    holds it; the generator goes on with the next chunk.  A chunk that
    arrives after the line and holds a Shape A unit with a text that is not
    empty yields that text.  The specification asks for no response after
    the line. *)
Theorem data_after_done_is_processed
    (json_loads : str -> exc json) (decode : list N -> str)
    (done late : list N) (t : str) :
  done <> [] ->
  decode done = lit "data: [DONE]" ++ [nl] ->
  sse_line json_loads decode late (shape_a t) ->
  t <> [] ->
  QwenLlm._process_sse_stream json_loads decode [done; late]
  = ([text_response t], None).
Proof.
  intros Hdone Hd Hlate Ht. unfold QwenLlm._process_sse_stream.
  rewrite (done_keeps_the_rest _ _ _ [] [late] [] Hdone)
    by (rewrite Hd; reflexivity).
  rewrite (run_chunks_of_lines json_loads decode [late] [shape_a t])
    by (repeat (constructor; try assumption)).
  unfold QwenLlm.sse_units. cbn [QwenLlm.run_units]. unfold gbind, except_decode.
  rewrite sse_unit_shape_a. destruct t as [|c t]; [contradiction|].
  reflexivity.
Qed.

Lemma data_after_done_is_processed_witness :
  let done := lit "data: [DONE]" ++ [nl] in
  let late := lit "data: " ++ shape_a_text (lit "late") ++ [nl] in
  done <> []
  /\ JsonRef.decode_ascii done = lit "data: [DONE]" ++ [nl]
  /\ sse_line JsonRef.loads JsonRef.decode_ascii late (shape_a (lit "late"))
  /\ lit "late" <> []
  /\ QwenLlm._process_sse_stream JsonRef.loads JsonRef.decode_ascii [done; late]
     = ([text_response (lit "late")], None).
Proof.
  intros done late.
  assert (H1 : done <> []) by discriminate.
  assert (H2 : sse_line JsonRef.loads JsonRef.decode_ascii late
                 (shape_a (lit "late"))).
  { split; [discriminate|]. exists (shape_a_text (lit "late")), 0%nat.
    repeat split; vm_compute; reflexivity. }
  assert (H3 : lit "late" <> []) by discriminate.
  split; [exact H1|]. split; [reflexivity|]. split; [exact H2|].
  split; [exact H3|].
  exact (data_after_done_is_processed JsonRef.loads JsonRef.decode_ascii
           done late (lit "late") H1 eq_refl H2 H3).
Defined.

(** A unit that follows the line in the same chunk is kept back and yields
    its text as soon as another chunk arrives, be it an empty line. *)
Lemma data_after_done_in_the_same_chunk :
  let done := lit "data: [DONE]" ++ [nl] in
  let late := lit "data: " ++ shape_a_text (lit "late") ++ [nl] in
  QwenLlm._process_sse_stream JsonRef.loads JsonRef.decode_ascii [done ++ late]
  = ([], None)
  /\ QwenLlm._process_sse_stream JsonRef.loads JsonRef.decode_ascii
       [done ++ late; [nl]]
     = ([text_response (lit "late")], None).
Proof. split; vm_compute; reflexivity. Qed.

(** ** The scenario of the specification *)

(** Three reads of an SSE transport: ["Hel"], then ["Hello"], then
    ["Hello"] with the finish reason and the closing line. *)
Lemma end_to_end_sse :
  QwenLlm._process_sse_stream JsonRef.loads JsonRef.decode_ascii
    [sse_event (shape_a_text (lit "Hel"));
     sse_event (shape_a_text (lit "Hello"));
     sse_event (shape_a_finish_text (lit "Hello") (lit "stop"))
       ++ sse_event (lit "[DONE]")]
  = ([text_response (lit "Hel"); text_response (lit "lo");
      final_response (Some STOP) None], None).
Proof. vm_compute. reflexivity. Qed.

(** * Further properties *)

(** ** The accumulated text of the processors *)

Section Tracks.
Import QwenLlm.

Lemma tracks_gret {A} (a : A) : tracks (gret a).
Proof. intros acc. simpl. now rewrite app_nil_r. Qed.

Lemma tracks_lift {A} (m : exc A) : tracks (lift m).
Proof. intros acc. simpl. now rewrite app_nil_r. Qed.

Lemma tracks_gbind {A B} (m : gen A) (f : A -> gen B) :
  tracks m -> (forall a, tracks (f a)) -> tracks (gbind m f).
Proof.
  intros Hm Hf acc. unfold gbind. specialize (Hm acc).
  destruct (m acc) as [[out acc'] [a|e]]; [|exact Hm].
  specialize (Hf a acc'). destruct (f a acc') as [[out' acc''] r].
  simpl in *. rewrite texts_app, concat_app, app_assoc, <- Hm. exact Hf.
Qed.

Lemma tracks_except_decode (m : gen unit) : tracks m -> tracks (except_decode m).
Proof.
  intros Hm acc. unfold except_decode. specialize (Hm acc).
  destruct (m acc) as [[out acc'] [a|[]]]; exact Hm.
Qed.

Lemma tracks_final (r : option FinishReason) (u : option UsageMetadata) :
  tracks (yield (final_response r u)).
Proof. intros acc. simpl. now rewrite app_nil_r. Qed.

Lemma tracks_emit_increment (v : json) : tracks (emit_increment (fun t => t) v).
Proof.
  intros acc. destruct v;
    try (unfold emit_increment; simpl; try destruct b; try destruct n;
         repeat match goal with |- context [if ?c then _ else _] => destruct c end;
         simpl; now rewrite app_nil_r).
  - rewrite emit_increment_str.
    destruct (nonempty s && startswith s acc) eqn:E; simpl;
      [|now rewrite app_nil_r].
    apply andb_true_iff in E as [_ E].
    rewrite texts_fragment.
    rewrite (startswith_split _ _ E) at 1. f_equal.
    destruct (skipn (length acc) s); reflexivity || (simpl; now rewrite app_nil_r).
Qed.

Lemma tracks_sse_unit (data : json) : tracks (sse_unit data).
Proof.
  unfold sse_unit.
  apply tracks_gbind; [apply tracks_lift|]. intros [current_text fr].
  apply tracks_gbind; [apply tracks_emit_increment|]. intros _.
  destruct (truthy fr); [|apply tracks_gret].
  apply tracks_gbind; [apply tracks_lift|]. intros r. apply tracks_final.
Qed.

Variable json_loads : str -> exc json.
Variable decode : list N -> str.

Lemma tracks_sse_while (fuel : nat) (buffer : str) :
  tracks (sse_while json_loads fuel buffer).
Proof.
  revert buffer; induction fuel as [|fuel IH]; intros buffer;
    cbn [sse_while]; [apply tracks_gret|].
  destruct (split1 nl buffer) as [[line rest]|]; [|apply tracks_gret].
  destruct (nonempty (strip line)); cbn [negb]; [|apply IH].
  destruct (startswith _ _); [|apply IH].
  destruct (Py.eqb _ _); [apply tracks_gret|].
  apply tracks_gbind; [|intros _; apply IH].
  apply tracks_except_decode, tracks_gbind; [apply tracks_lift|].
  intros data. apply tracks_sse_unit.
Qed.

Lemma tracks_sse_chunks (chunks : list (list N)) (buffer : str) :
  tracks (run_chunks (sse_chunk json_loads decode) buffer chunks).
Proof.
  revert buffer; induction chunks as [|c rest IH]; intros buffer; simpl.
  - apply tracks_gret.
  - apply tracks_gbind; [|intros b; apply IH].
    destruct c; [apply tracks_gret | apply tracks_sse_while].
Qed.

End Tracks.

(** X1.  On the SSE path the accumulated text is the text that has been
    yielded: from any buffer and accumulated text, the accumulated text
    after the chunks is the one before them followed by the texts of the
    responses yielded, in order; so the texts of a whole stream add up to
    its last accumulated text. *)
Theorem sse_text_is_accumulated
    (json_loads : str -> exc json) (decode : list N -> str)
    (chunks : list (list N)) :
  (forall buffer acc,
     let r := QwenLlm.run_chunks (QwenLlm.sse_chunk json_loads decode) buffer
                chunks acc in
     snd (fst r) = acc ++ concat (texts (fst (fst r))))
  /\ concat (texts (fst (QwenLlm._process_sse_stream json_loads decode chunks)))
     = snd (fst (QwenLlm.run_chunks (QwenLlm.sse_chunk json_loads decode) []
                   chunks [])).
Proof.
  split.
  - intros buffer acc. exact (tracks_sse_chunks json_loads decode chunks buffer acc).
  - pose proof (tracks_sse_chunks json_loads decode chunks [] []) as H.
    unfold QwenLlm._process_sse_stream.
    destruct (QwenLlm.run_chunks _ _ _ _) as [[out acc] [a|e]]; simpl in *;
      now rewrite H.
Qed.

Lemma startswith_refl (s : str) : startswith s s = true.
Proof. induction s; simpl; [reflexivity|]. now rewrite N.eqb_refl. Qed.

Lemma startswith_trans (a b c : str) :
  startswith a b = true -> startswith b c = true -> startswith a c = true.
Proof.
  revert a b; induction c as [|x c IH]; intros a b H1 H2; [reflexivity|].
  destruct b as [|y b]; [discriminate|]. destruct a as [|z a]; [discriminate|].
  simpl in *. apply andb_true_iff in H1 as [E1 H1], H2 as [E2 H2].
  apply N.eqb_eq in E1, E2. subst. rewrite N.eqb_refl. simpl. eauto.
Qed.

Section Grows.
Import QwenLlm.

Lemma grows_gret {A} (a : A) : grows (gret a).
Proof. intros acc. apply startswith_refl. Qed.

Lemma grows_lift {A} (m : exc A) : grows (lift m).
Proof. intros acc. apply startswith_refl. Qed.

Lemma grows_yield (r : LlmResponse) : grows (yield r).
Proof. intros acc. apply startswith_refl. Qed.

Lemma grows_gbind {A B} (m : gen A) (f : A -> gen B) :
  grows m -> (forall a, grows (f a)) -> grows (gbind m f).
Proof.
  intros Hm Hf acc. unfold gbind. specialize (Hm acc).
  destruct (m acc) as [[out acc'] [a|e]]; [|exact Hm].
  specialize (Hf a acc'). destruct (f a acc') as [[out' acc''] r].
  simpl in *. eapply startswith_trans; eassumption.
Qed.

Lemma grows_except_decode (m : gen unit) : grows m -> grows (except_decode m).
Proof.
  intros Hm acc. unfold except_decode. specialize (Hm acc).
  destruct (m acc) as [[out acc'] [a|[]]]; exact Hm.
Qed.

Lemma grows_except_all (m : gen unit) : grows m -> grows (except_all m).
Proof.
  intros Hm acc. unfold except_all. specialize (Hm acc).
  destruct (m acc) as [[out acc'] [a|e]]; exact Hm.
Qed.

Lemma grows_emit_increment (post : str -> str) (v : json) :
  grows (emit_increment post v).
Proof.
  intros acc. destruct v;
    try (unfold emit_increment; simpl; try destruct b; try destruct n;
         repeat match goal with |- context [if ?c then _ else _] => destruct c end;
         simpl; apply startswith_refl).
  rewrite emit_increment_str.
  destruct (nonempty s && startswith s acc) eqn:E; simpl;
    [|apply startswith_refl].
  now apply andb_true_iff in E as [_ E].
Qed.

Lemma grows_sse_unit (data : json) : grows (sse_unit data).
Proof.
  unfold sse_unit.
  apply grows_gbind; [apply grows_lift|]. intros [current_text fr].
  apply grows_gbind; [apply grows_emit_increment|]. intros _.
  destruct (truthy fr); [|apply grows_gret].
  apply grows_gbind; [apply grows_lift|]. intros r. apply grows_yield.
Qed.

Lemma grows_json_unit (data : json) : grows (json_unit data).
Proof.
  unfold json_unit.
  apply grows_gbind; [apply grows_lift|]. intros [current_text fr].
  apply grows_gbind; [apply grows_lift|]. intros usage_data.
  apply grows_gbind; [apply grows_emit_increment|]. intros _.
  destruct (truthy fr); [|apply grows_gret].
  apply grows_gbind; [apply grows_lift|]. intros r.
  apply grows_gbind; [apply grows_lift|]. intros u. apply grows_yield.
Qed.

Variable json_loads : str -> exc json.
Variable decode : list N -> str.

Lemma grows_sse_while (fuel : nat) (buffer : str) :
  grows (sse_while json_loads fuel buffer).
Proof.
  revert buffer; induction fuel as [|fuel IH]; intros buffer;
    cbn [sse_while]; [apply grows_gret|].
  destruct (split1 nl buffer) as [[line rest]|]; [|apply grows_gret].
  destruct (nonempty (strip line)); cbn [negb]; [|apply IH].
  destruct (startswith _ _); [|apply IH].
  destruct (Py.eqb _ _); [apply grows_gret|].
  apply grows_gbind; [|intros _; apply IH].
  apply grows_except_decode, grows_gbind; [apply grows_lift|].
  intros data. apply grows_sse_unit.
Qed.

Lemma grows_json_chunk (buffer : str) (chunk : list N) :
  grows (json_chunk json_loads decode buffer chunk).
Proof.
  destruct chunk as [|b chunk]; [apply grows_gret|]. unfold json_chunk.
  destruct (_ && _); [|apply grows_gret].
  apply grows_gbind; [|intros _; apply grows_gret].
  apply grows_except_all, grows_gbind; [apply grows_lift|].
  intros data. apply grows_json_unit.
Qed.

Lemma grows_run_chunks (step : str -> list N -> gen str) :
  (forall buffer chunk, grows (step buffer chunk)) ->
  forall chunks buffer, grows (run_chunks step buffer chunks).
Proof.
  intros H chunks. induction chunks as [|c rest IH]; intros buffer; simpl.
  - apply grows_gret.
  - apply grows_gbind; [apply H | intros b; apply IH].
Qed.

End Grows.

(** X2.  In both processors the accumulated text is only ever extended:
    from any buffer and accumulated text, the accumulated text after the
    chunks starts with the one before them. *)
Theorem accumulated_text_only_grows
    (json_loads : str -> exc json) (decode : list N -> str)
    (chunks : list (list N)) (buffer acc : str) :
  startswith
    (snd (fst (QwenLlm.run_chunks (QwenLlm.sse_chunk json_loads decode)
                 buffer chunks acc))) acc = true
  /\ startswith
       (snd (fst (QwenLlm.run_chunks (QwenLlm.json_chunk json_loads decode)
                    buffer chunks acc))) acc = true.
Proof.
  split.
  - apply grows_run_chunks. intros b [|x c];
      [apply grows_gret | apply grows_sse_while].
  - apply grows_run_chunks. apply grows_json_chunk.
Qed.

Lemma except_all_ok (m : gen unit) (acc : str) : snd (except_all m acc) = Ok tt.
Proof.
  unfold except_all. destruct (m acc) as [[out acc'] [[]|e]]; reflexivity.
Qed.

Lemma json_chunk_returns (json_loads : str -> exc json) (decode : list N -> str)
    (buffer : str) (chunk : list N) (acc : str) :
  exists b, snd (QwenLlm.json_chunk json_loads decode buffer chunk acc) = Ok b.
Proof.
  unfold QwenLlm.json_chunk. destruct chunk as [|x chunk]; [now eexists|].
  destruct (_ && _); [|now eexists].
  unfold gbind. 
  match goal with |- context [except_all ?m acc] =>
    pose proof (except_all_ok m acc) as H;
    destruct (except_all m acc) as [[out acc'] r] end.
  simpl in H. subst r. now eexists.
Qed.

(** X3.  The JSON processor ends without an exception whatever the chunks
    hold and whatever the decoder raises: each failure inside its [try] is
    logged and the next chunk is read. *)
Theorem json_stream_never_raises
    (json_loads : str -> exc json) (decode : list N -> str)
    (chunks : list (list N)) :
  snd (QwenLlm._process_json_stream json_loads decode chunks) = None.
Proof.
  unfold QwenLlm._process_json_stream.
  generalize (@nil char) at 1. generalize (@nil char).
  induction chunks as [|c rest IH]; intros acc buffer; [reflexivity|].
  cbn [QwenLlm.run_chunks]. unfold gbind.
  destruct (json_chunk_returns json_loads decode buffer c acc) as [b Hb].
  destruct (QwenLlm.json_chunk json_loads decode buffer c acc) as [[out acc'] r].
  simpl in Hb. subst r. specialize (IH acc' b).
  destruct (QwenLlm.run_chunks _ b rest acc') as [[o a] [u|e]];
    [reflexivity | discriminate].
Qed.

(** ** One unit of a stream *)

(** X5.  A unit whose text and finish reason are both falsy yields nothing
    and leaves the accumulated text as it is, on both paths. *)
Theorem unit_without_text_or_reason_is_silent (data t f : json) (acc : str) :
  QwenLlm.extract data = Ok (t, f) ->
  truthy t = false ->
  truthy f = false ->
  QwenLlm.sse_unit data acc = ([], acc, Ok tt)
  /\ fst (QwenLlm.json_unit data acc) = ([], acc).
Proof.
  intros He Ht Hf. split.
  - unfold QwenLlm.sse_unit, QwenLlm.emit_increment, gbind, lift, gret.
    now rewrite He, Ht, Hf.
  - unfold QwenLlm.json_unit, QwenLlm.emit_increment, gbind, lift, gret.
    rewrite He. destruct (QwenLlm.extract_usage data); [|reflexivity].
    now rewrite Ht, Hf.
Qed.

Lemma unit_without_text_or_reason_is_silent_witness :
  let data := JObj [(lit "request_id", JStr (lit "42"))] in
  QwenLlm.extract data = Ok (JStr [], JNull)
  /\ QwenLlm.sse_unit data (lit "Hi") = ([], lit "Hi", Ok tt)
  /\ fst (QwenLlm.json_unit data (lit "Hi")) = ([], lit "Hi").
Proof.
  intros data. split; [reflexivity|].
  exact (unit_without_text_or_reason_is_silent data (JStr []) JNull (lit "Hi")
           eq_refl eq_refl eq_refl).
Defined.

(** X6.  A dict that has neither the key [output] nor the key [choices]
    yields nothing, raises nothing and leaves the accumulated text as it is,
    on both paths. *)
Theorem unknown_shape_is_silent (d : list (str * json)) (acc : str) :
  dict_mem d (lit "output") = false ->
  dict_mem d (lit "choices") = false ->
  QwenLlm.sse_unit (JObj d) acc = ([], acc, Ok tt)
  /\ QwenLlm.json_unit (JObj d) acc = ([], acc, Ok tt).
Proof.
  intros H1 H2.
  assert (He : QwenLlm.extract (JObj d) = Ok (JStr [], JNull)).
  { unfold QwenLlm.extract. cbn [py_in bind]. now rewrite H1, H2. }
  split.
  - unfold QwenLlm.sse_unit, QwenLlm.emit_increment, gbind, lift, gret.
    rewrite He. reflexivity.
  - unfold QwenLlm.json_unit, QwenLlm.emit_increment, gbind, lift, gret.
    rewrite He. unfold QwenLlm.extract_usage. cbn [py_in bind py_item].
    destruct (dict_mem d (lit "usage")); reflexivity.
Qed.

Lemma unknown_shape_is_silent_witness :
  let d := [(lit "code", JStr (lit "Throttling"))] in
  dict_mem d (lit "output") = false
  /\ dict_mem d (lit "choices") = false
  /\ QwenLlm.sse_unit (JObj d) (lit "Hi") = ([], lit "Hi", Ok tt)
  /\ QwenLlm.json_unit (JObj d) (lit "Hi") = ([], lit "Hi", Ok tt).
Proof.
  intros d. split; [reflexivity|]. split; [reflexivity|].
  exact (unknown_shape_is_silent d (lit "Hi") eq_refl eq_refl).
Defined.

Lemma emit_increment_at_most_one (post : str -> str) (v : json) (a : str) :
  let ds := fst (fst (QwenLlm.emit_increment post v a)) in
  (length ds <= 1)%nat /\ Forall delta_shape ds
  /\ ((forall t, post t = t) -> Forall nonempty_delta ds).
Proof.
  assert (Hnil : forall ds : list LlmResponse, ds = [] ->
            (length ds <= 1)%nat /\ Forall delta_shape ds
            /\ ((forall t, post t = t) -> Forall nonempty_delta ds)).
  { intros ds ->. repeat split; try constructor. simpl. lia. }
  destruct v as [|b|n|s|l|d]; cbv zeta;
    try (apply Hnil; unfold QwenLlm.emit_increment; simpl;
         try destruct b; try destruct n; try destruct l; try destruct d;
         repeat match goal with
                | |- context [if ?c then _ else _] => destruct c
                end; reflexivity).
  rewrite emit_increment_str.
  destruct (nonempty s && startswith s a); [|now apply Hnil].
  unfold fragment. destruct (skipn (length a) s) as [|c t] eqn:Es;
    [now apply Hnil|].
  cbn [nonempty fst length]. repeat split; [lia | |].
  - constructor; [now eexists | constructor].
  - intros Hid. constructor; [|constructor]. exists (c :: t).
    rewrite Hid. split; [discriminate | reflexivity].
Qed.

(** X7.  One unit yields at most two responses: at most one with a text and
    then at most one with a finish reason and no content.  On the SSE path
    the text is not empty. *)
Theorem unit_yields_delta_then_completion (data : json) (acc : str) :
  (exists ds cs,
     fst (fst (QwenLlm.sse_unit data acc)) = ds ++ cs
     /\ (length ds <= 1)%nat /\ (length cs <= 1)%nat
     /\ Forall nonempty_delta ds /\ Forall complete_shape cs)
  /\ (exists ds cs,
        fst (fst (QwenLlm.json_unit data acc)) = ds ++ cs
        /\ (length ds <= 1)%nat /\ (length cs <= 1)%nat
        /\ Forall delta_shape ds /\ Forall complete_shape cs).
Proof.
  assert (H0 : (@length LlmResponse [] <= 1)%nat) by (simpl; lia).
  split.
  - unfold QwenLlm.sse_unit. unfold gbind at 1. unfold lift at 1.
    destruct (QwenLlm.extract data) as [[t f]|e].
    2: { exists [], []. repeat split; auto. }
    destruct (emit_increment_at_most_one (fun t => t) t acc) as (Hl & _ & Hne).
    specialize (Hne (fun _ => eq_refl)).
    unfold gbind at 1.
    destruct (QwenLlm.emit_increment _ t acc) as [[ds acc'] r]. cbn [app fst] in *.
    destruct r as [[]|e]; [|exists ds, []; rewrite app_nil_r; repeat split; auto].
    destruct (truthy f) eqn:Ef.
    + unfold gbind, lift, yield.
      destruct (QwenLlm._map_finish_reason f) as [r|e] eqn:Er.
      * destruct (map_finish_reason_truthy _ _ Ef Er) as [fr ->].
        exists ds, [final_response (Some fr) None]. cbn [app fst].
        repeat split; auto. constructor; [now eexists _, _ | constructor].
      * exists ds, []. repeat split; auto.
    + exists ds, []. cbn [gret]. repeat split; auto.
  - unfold QwenLlm.json_unit. unfold gbind at 1. unfold lift at 1.
    destruct (QwenLlm.extract data) as [[t f]|e].
    2: { exists [], []. repeat split; auto. }
    unfold gbind at 1. unfold lift at 1.
    destruct (QwenLlm.extract_usage data) as [u|e].
    2: { exists [], []. repeat split; auto. }
    destruct (emit_increment_at_most_one Sanitizer._clean_markdown_json t acc)
      as (Hl & Hd & _).
    unfold gbind at 1.
    destruct (QwenLlm.emit_increment _ t acc) as [[ds acc'] r]. cbn [app fst] in *.
    destruct r as [[]|e]; [|exists ds, []; rewrite app_nil_r; repeat split; auto].
    destruct (truthy f) eqn:Ef.
    + unfold gbind at 1. unfold lift at 1.
      destruct (QwenLlm._map_finish_reason f) as [r|e] eqn:Er.
      * destruct (map_finish_reason_truthy _ _ Ef Er) as [fr ->].
        unfold gbind, lift, yield.
        destruct (if truthy u then _ else _) as [um|e].
        -- exists ds, [final_response (Some fr) um]. cbn [app fst].
           repeat split; auto. constructor; [now eexists _, _ | constructor].
        -- exists ds, []. cbn [app fst]. repeat split; auto.
      * exists ds, []. repeat split; auto.
    + exists ds, []. cbn [gret]. repeat split; auto.
Qed.

(** X4.  On the SSE path a text that is truthy and not a [str] ends the
    stream: [startswith] raises [AttributeError], which the handler for
    [JSONDecodeError] lets through, so nothing of the chunk or of the later
    ones is yielded. *)
Theorem ill_typed_text_ends_sse_stream
    (json_loads : str -> exc json) (decode : list N -> str)
    (chunk : list N) (later : list (list N)) (u v f : json) :
  sse_line json_loads decode chunk u ->
  QwenLlm.extract u = Ok (v, f) ->
  truthy v = true ->
  (forall s, v <> JStr s) ->
  QwenLlm._process_sse_stream json_loads decode (chunk :: later)
  = ([], Some AttributeError).
Proof.
  intros Hl He Ht Hv. unfold QwenLlm._process_sse_stream.
  cbn [QwenLlm.run_chunks]. unfold gbind at 1.
  rewrite (sse_chunk_line _ _ _ _ [] Hl).
  assert (E : QwenLlm.sse_unit u [] = ([], [], Raise AttributeError)).
  { unfold QwenLlm.sse_unit, QwenLlm.emit_increment, gbind, lift.
    rewrite He, Ht. destruct v; try reflexivity. now destruct (Hv s). }
  unfold except_decode. rewrite E. reflexivity.
Qed.

Lemma ill_typed_text_ends_sse_stream_witness :
  let d := lit "{" ++ [quote] ++ lit "output" ++ [quote] ++ lit ":{" ++ [quote]
             ++ lit "text" ++ [quote] ++ lit ":5}}" in
  let u := JObj [(lit "output", JObj [(lit "text", JNum (NInt 5))])] in
  let chunk := lit "data: " ++ d ++ [nl] in
  let later := sse_event (shape_a_text (lit "Hello")) in
  sse_line JsonRef.loads JsonRef.decode_ascii chunk u
  /\ QwenLlm.extract u = Ok (JNum (NInt 5), JNull)
  /\ QwenLlm._process_sse_stream JsonRef.loads JsonRef.decode_ascii
       [chunk; later]
     = ([], Some AttributeError).
Proof.
  intros d u chunk later.
  assert (H1 : sse_line JsonRef.loads JsonRef.decode_ascii chunk u).
  { split; [discriminate|]. exists d, 0%nat.
    repeat split; vm_compute; reflexivity. }
  assert (H2 : forall s, JNum (NInt 5) <> JStr s) by discriminate.
  split; [exact H1|]. split; [reflexivity|].
  exact (ill_typed_text_ends_sse_stream JsonRef.loads JsonRef.decode_ascii
           chunk [later] u (JNum (NInt 5)) JNull H1 eq_refl eq_refl H2).
Defined.

(** ** The SSE loop and the text it reads *)

Lemma gbind_gret {A B} (a : A) (f : A -> gen B) (acc : str) :
  gbind (gret a) f acc = f a acc.
Proof. unfold gbind, gret. now destruct (f a acc) as [[out acc'] r]. Qed.

Lemma gbind_ext {A B} (m : gen A) (f g : A -> gen B) (acc : str) :
  (forall a acc', f a acc' = g a acc') -> gbind m f acc = gbind m g acc.
Proof.
  intros H. unfold gbind. destruct (m acc) as [[out acc'] [a|e]]; [|reflexivity].
  now rewrite H.
Qed.

Lemma gbind_cong {A B} (m m' : gen A) (f : A -> gen B) (acc : str) :
  m acc = m' acc -> gbind m f acc = gbind m' f acc.
Proof. unfold gbind. now intros ->. Qed.

Lemma gbind_assoc {A B C} (m : gen A) (f : A -> gen B) (g : B -> gen C)
    (acc : str) :
  gbind (gbind m f) g acc = gbind m (fun a => gbind (f a) g) acc.
Proof.
  unfold gbind. destruct (m acc) as [[o1 a1] [a|e]]; [|reflexivity].
  destruct (f a a1) as [[o2 a2] [b|e]]; [|reflexivity].
  destruct (g b a2) as [[o3 a3] r]. now rewrite app_assoc.
Qed.

Lemma split1_split (s line rest : str) :
  split1 nl s = Some (line, rest) -> split nl s = line :: split nl rest.
Proof.
  revert line rest; induction s as [|c s IH]; intros line rest H; simpl in *;
    [discriminate|].
  destruct (c =? nl)%N.
  - now injection H as <- <-.
  - destruct (split1 nl s) as [[l r]|]; [|discriminate].
    injection H as <- <-. now rewrite (IH l r eq_refl).
Qed.

Lemma split1_app (s line rest s2 : str) :
  split1 nl s = Some (line, rest) ->
  split1 nl (s ++ s2) = Some (line, rest ++ s2).
Proof.
  revert line rest; induction s as [|c s IH]; intros line rest H; simpl in *;
    [discriminate|].
  destruct (c =? nl)%N.
  - now injection H as <- <-.
  - destruct (split1 nl s) as [[l r]|]; [|discriminate].
    injection H as <- <-. now rewrite (IH l r eq_refl).
Qed.

Lemma split1_length (s line rest : str) :
  split1 nl s = Some (line, rest) -> (length rest < length s)%nat.
Proof.
  revert line rest; induction s as [|c s IH]; intros line rest H; simpl in *;
    [discriminate|].
  destruct (c =? nl)%N.
  - injection H as <- <-. lia.
  - destruct (split1 nl s) as [[l r]|]; [|discriminate].
    injection H as <- <-. specialize (IH l r eq_refl). lia.
Qed.

Lemma complete_lines_step (s line rest : str) :
  split1 nl s = Some (line, rest) ->
  complete_lines s = line :: complete_lines rest.
Proof.
  intros H. unfold complete_lines. rewrite (split1_split _ _ _ H).
  destruct (split nl rest) eqn:E; [now apply split_not_nil in E|reflexivity].
Qed.

Section Text.
Variable json_loads : str -> exc json.

Lemma sse_while_step (fuel : nat) (s line rest acc : str) :
  split1 nl s = Some (line, rest) ->
  QwenLlm.sse_while json_loads (S fuel) s acc
  = if done_line line then ([], acc, Ok rest)
    else gbind (line_body json_loads line)
           (fun _ => QwenLlm.sse_while json_loads fuel rest) acc.
Proof.
  intros H. cbn [QwenLlm.sse_while]. rewrite H. unfold done_line, line_body.
  destruct (nonempty (strip line)); cbn [negb andb];
    [|now rewrite gbind_gret].
  destruct (startswith (strip line) (lit "data: ")); cbn [andb];
    [|now rewrite gbind_gret].
  destruct (Py.eqb _ _); reflexivity.
Qed.

Lemma sse_while_fuel (f1 f2 : nat) (s acc : str) :
  (length s <= f1)%nat -> (length s <= f2)%nat ->
  QwenLlm.sse_while json_loads f1 s acc = QwenLlm.sse_while json_loads f2 s acc.
Proof.
  revert f2 s acc; induction f1 as [|f1 IH]; intros f2 s acc H1 H2.
  - destruct s; [|simpl in H1; lia]. destruct f2; reflexivity.
  - destruct (split1 nl s) as [[line rest]|] eqn:E.
    + destruct f2 as [|f2].
      { destruct s; [discriminate | simpl in H2; lia]. }
      rewrite !(sse_while_step _ _ _ _ _ E).
      destruct (done_line line); [reflexivity|].
      apply gbind_ext. intros _ acc'. apply split1_length in E.
      apply IH; lia.
    + destruct f2; cbn [QwenLlm.sse_while]; now rewrite ?E.
Qed.

Lemma sse_text_step (s line rest acc : str) :
  split1 nl s = Some (line, rest) ->
  sse_text json_loads s acc
  = if done_line line then ([], acc, Ok rest)
    else gbind (line_body json_loads line) (fun _ => sse_text json_loads rest) acc.
Proof.
  intros H. unfold sse_text. pose proof (split1_length _ _ _ H) as Hl.
  destruct (length s) as [|n] eqn:En; [lia|].
  rewrite (sse_while_step _ _ _ _ _ H).
  destruct (done_line line); [reflexivity|].
  apply gbind_ext. intros _ acc'. apply sse_while_fuel; lia.
Qed.

Lemma sse_text_none (s acc : str) :
  split1 nl s = None -> sse_text json_loads s acc = ([], acc, Ok s).
Proof.
  intros H. unfold sse_text. destruct (length s); cbn [QwenLlm.sse_while];
    now rewrite ?H.
Qed.

Lemma sse_text_app (n : nat) (s1 s2 acc : str) :
  (length s1 <= n)%nat ->
  no_done_line (s1 ++ s2) ->
  sse_text json_loads (s1 ++ s2) acc
  = gbind (sse_text json_loads s1) (fun r => sse_text json_loads (r ++ s2)) acc.
Proof.
  revert s1 acc; induction n as [|n IH]; intros s1 acc Hn Hd.
  - destruct s1; [|simpl in Hn; lia].
    rewrite (@gbind_cong str str _ (gret ([] : str)) _ acc)
      by apply (sse_text_none [] acc eq_refl).
    now rewrite gbind_gret.
  - destruct (split1 nl s1) as [[line rest]|] eqn:E.
    + pose proof (split1_app _ _ _ s2 E) as E2.
      unfold no_done_line in Hd. rewrite (complete_lines_step _ _ _ E2) in Hd.
      cbn [forallb] in Hd. apply andb_true_iff in Hd as [Hline Hrest].
      apply negb_true_iff in Hline.
      rewrite (sse_text_step _ _ _ _ E2), Hline.
      rewrite (@gbind_cong str str _ (gbind (line_body json_loads line)
                               (fun _ => sse_text json_loads rest)) _ acc)
        by (now rewrite (sse_text_step _ _ _ _ E), Hline).
      rewrite gbind_assoc. apply gbind_ext. intros _ acc'.
      apply IH; [|exact Hrest]. apply split1_length in E. lia.
    + rewrite (@gbind_cong str str _ (gret s1) _ acc)
        by apply (sse_text_none _ _ E).
      now rewrite gbind_gret.
Qed.

Lemma sse_text_leftover (n : nat) (s1 s2 acc : str) :
  (length s1 <= n)%nat ->
  no_done_line (s1 ++ s2) ->
  forall out acc' r,
    sse_text json_loads s1 acc = (out, acc', Ok r) ->
    split1 nl r = None /\ no_done_line (r ++ s2).
Proof.
  revert s1 acc; induction n as [|n IH]; intros s1 acc Hn Hd out acc' r H.
  - destruct s1; [|simpl in Hn; lia].
    rewrite (sse_text_none [] acc eq_refl) in H. injection H as <- <- <-.
    now split.
  - destruct (split1 nl s1) as [[line rest]|] eqn:E.
    + pose proof (split1_app _ _ _ s2 E) as E2.
      unfold no_done_line in Hd. rewrite (complete_lines_step _ _ _ E2) in Hd.
      cbn [forallb] in Hd. apply andb_true_iff in Hd as [Hline Hrest].
      apply negb_true_iff in Hline.
      rewrite (sse_text_step _ _ _ _ E), Hline in H. unfold gbind in H.
      destruct (line_body json_loads line acc) as [[o1 a1] [[]|e]];
        [|discriminate].
      destruct (sse_text json_loads rest a1) as [[o2 a2] r2] eqn:E3.
      injection H as <- <- ->.
      apply (IH rest a1 (ltac:(apply split1_length in E; lia)) Hrest _ _ _ E3).
    + rewrite (sse_text_none _ _ E) in H. injection H as <- <- <-.
      now split.
Qed.

Variable decode : list N -> str.

Lemma sse_chunk_text (buffer : str) (chunk : list N) (acc : str) :
  chunk <> [] ->
  QwenLlm.sse_chunk json_loads decode buffer chunk acc
  = sse_text json_loads (buffer ++ decode chunk) acc.
Proof. destruct chunk; [contradiction | reflexivity]. Qed.

Lemma run_chunks_text (chunks : list (list N)) :
  forall buffer acc,
    split1 nl buffer = None ->
    no_done_line (buffer ++ decoded decode chunks) ->
    ended (QwenLlm.run_chunks (QwenLlm.sse_chunk json_loads decode) buffer
             chunks acc)
    = ended (sse_text json_loads (buffer ++ decoded decode chunks) acc).
Proof.
  induction chunks as [|c rest IH]; intros buffer acc Hb Hd.
  - simpl. rewrite app_nil_r. now rewrite (sse_text_none _ _ Hb).
  - destruct c as [|x c].
    + cbn [QwenLlm.run_chunks decoded].
      change (QwenLlm.sse_chunk json_loads decode buffer [])
        with (@gret str buffer).
      rewrite gbind_gret. now apply IH.
    + cbn [QwenLlm.run_chunks]. 
      change (decoded decode ((x :: c) :: rest))
        with (decode (x :: c) ++ decoded decode rest) in *.
      rewrite app_assoc in *.
      rewrite (sse_text_app _ _ _ _ (le_n _) Hd).
      unfold gbind. rewrite sse_chunk_text by discriminate.
      pose proof (sse_text_leftover _ _ _ acc (le_n _) Hd) as Hl.
      destruct (sse_text json_loads (buffer ++ decode (x :: c)) acc)
        as [[o1 a1] [r|e]]; [|reflexivity].
      destruct (Hl _ _ _ eq_refl) as [Hr Hd'].
      specialize (IH r a1 Hr Hd').
      destruct (QwenLlm.run_chunks _ r rest a1) as [[o2 a2] r2],
               (sse_text json_loads (r ++ decoded decode rest) a1)
                 as [[o3 a3] r3].
      destruct r2, r3; simpl in *; congruence.
Qed.

End Text.

(** X8.  The SSE processor reads a text, not chunks: two transports that
    carry the same text, however it is cut into chunks and whatever empty
    chunks come between, yield the same responses and end alike, as long as
    no complete line of the text is the closing line. *)
Theorem sse_stream_depends_on_text_only
    (json_loads : str -> exc json) (decode : list N -> str)
    (chunks chunks' : list (list N)) :
  decoded decode chunks = decoded decode chunks' ->
  no_done_line (decoded decode chunks) ->
  QwenLlm._process_sse_stream json_loads decode chunks
  = QwenLlm._process_sse_stream json_loads decode chunks'.
Proof.
  intros E H. unfold QwenLlm._process_sse_stream.
  rewrite !run_chunks_text; rewrite <- ?E; try reflexivity; exact H.
Qed.

Lemma sse_stream_depends_on_text_only_witness :
  let d := shape_a_text (lit "Hello") in
  let whole := sse_event d in
  let c1 := firstn 10 whole in
  let c2 := skipn 10 whole in
  decoded JsonRef.decode_ascii [c1; []; c2] = decoded JsonRef.decode_ascii [whole]
  /\ no_done_line (decoded JsonRef.decode_ascii [c1; []; c2])
  /\ QwenLlm._process_sse_stream JsonRef.loads JsonRef.decode_ascii [c1; []; c2]
     = ([text_response (lit "Hello")], None).
Proof.
  intros d whole c1 c2.
  assert (H1 : decoded JsonRef.decode_ascii [c1; []; c2]
               = decoded JsonRef.decode_ascii [whole]) by reflexivity.
  assert (H2 : no_done_line (decoded JsonRef.decode_ascii [c1; []; c2]))
    by reflexivity.
  split; [exact H1|]. split; [exact H2|].
  exact (eq_trans
           (sse_stream_depends_on_text_only JsonRef.loads JsonRef.decode_ascii
              [c1; []; c2] [whole] H1 H2)
           eq_refl).
Defined.

Lemma line_body_passed_over (json_loads : str -> exc json) (line acc : str) :
  passed_over json_loads line ->
  line_body json_loads line acc = ([], acc, Ok tt) /\ done_line line = false.
Proof.
  unfold passed_over, line_body, done_line. intros [H|[H|[H1 H2]]].
  - now rewrite H.
  - rewrite H. destruct (nonempty (strip line)); now split.
  - rewrite H1, H2. destruct (nonempty (strip line)); [|now split].
    destruct (startswith _ _); now rewrite ?andb_false_r.
Qed.

(** X9.  A line at the head of a stream that is blank, or does not start
    with [data: ], or holds data that does not decode, changes nothing: the
    stream yields what it yields without the line. *)
Theorem passed_over_line_changes_nothing
    (json_loads : str -> exc json) (decode : list N -> str)
    (chunk chunk' : list N) (line : str) (later : list (list N)) :
  chunk <> [] -> chunk' <> [] ->
  existsb (fun c => N.eqb c nl) line = false ->
  passed_over json_loads line ->
  decode chunk = line ++ nl :: decode chunk' ->
  QwenLlm._process_sse_stream json_loads decode (chunk :: later)
  = QwenLlm._process_sse_stream json_loads decode (chunk' :: later).
Proof.
  intros Hc Hc' Hnl Hp Hd. unfold QwenLlm._process_sse_stream.
  cbn [QwenLlm.run_chunks]. f_equal. apply gbind_cong.
  rewrite !sse_chunk_text by assumption. cbn [app]. rewrite Hd.
  rewrite (sse_text_step _ _ _ _ _ (split1_line _ _ Hnl)).
  destruct (line_body_passed_over json_loads line [] Hp) as [Hb ->].
  unfold gbind. rewrite Hb.
  now destruct (sse_text json_loads (decode chunk') []) as [[o a] r].
Qed.

Lemma passed_over_line_changes_nothing_witness :
  let comment := lit ": keep-alive" in
  let unit_ := lit "data: " ++ shape_a_text (lit "Hi") ++ [nl] in
  (comment ++ nl :: unit_) <> []
  /\ passed_over JsonRef.loads comment
  /\ QwenLlm._process_sse_stream JsonRef.loads JsonRef.decode_ascii
       [comment ++ nl :: unit_]
     = ([text_response (lit "Hi")], None).
Proof.
  intros comment unit_.
  assert (H1 : (comment ++ nl :: unit_) <> []) by discriminate.
  assert (H2 : unit_ <> []) by discriminate.
  assert (H3 : passed_over JsonRef.loads comment) by (right; left; reflexivity).
  split; [exact H1|]. split; [exact H3|].
  exact (eq_trans
           (passed_over_line_changes_nothing JsonRef.loads JsonRef.decode_ascii
              (comment ++ nl :: unit_) unit_ comment [] H1 H2 eq_refl H3 eq_refl)
           eq_refl).
Defined.

(** ** [OpenAILlm]: streams and whole responses *)

Lemma texts_parse_openai_chunk (chunk : OpenAILlm.ChatCompletionChunk) :
  texts [OpenAILlm._parse_openai_chunk chunk]
  = if nonempty (first_content chunk) then [first_content chunk] else [].
Proof.
  unfold OpenAILlm._parse_openai_chunk, first_content.
  destruct (OpenAILlm.choices chunk) as [|[[text] reason] rest]; [reflexivity|].
  cbn [OpenAILlm.delta OpenAILlm.delta_content OpenAILlm.choice_finish_reason].
  destruct text as [[|c t]|]; cbn [nonempty]; try reflexivity;
    destruct reason as [[|c r]|]; reflexivity.
Qed.

(** X10.  The stream of [OpenAILlm] yields one response for each chunk and
    then the completion [STOP]; its texts are the contents of the first
    choices that are not empty, in order, so they add up to the contents of
    the chunks. *)
Theorem openai_stream_keeps_every_text
    (stream_response : list OpenAILlm.ChatCompletionChunk) :
  let out := OpenAILlm.generate_content_stream stream_response in
  length out = S (length stream_response)
  /\ last out (final_response None None) = final_response (Some STOP) None
  /\ texts out = filter nonempty (map first_content stream_response)
  /\ concat (texts out) = concat (map first_content stream_response).
Proof.
  cbv zeta. unfold OpenAILlm.generate_content_stream.
  assert (Ht : texts (map OpenAILlm._parse_openai_chunk stream_response
                        ++ [final_response (Some STOP) None])
               = filter nonempty (map first_content stream_response)).
  { rewrite texts_app. cbn [texts flat_map final_response content app].
    rewrite app_nil_r.
    induction stream_response as [|c rest IH]; [reflexivity|].
    cbn [map filter]. rewrite <- IH.
    change (texts (OpenAILlm._parse_openai_chunk c
                     :: map OpenAILlm._parse_openai_chunk rest))
      with (texts ([OpenAILlm._parse_openai_chunk c]
                     ++ map OpenAILlm._parse_openai_chunk rest)).
    rewrite texts_app, texts_parse_openai_chunk.
    now destruct (nonempty (first_content c)). }
  repeat split.
  - rewrite length_app, length_map. simpl. lia.
  - now rewrite last_last.
  - exact Ht.
  - rewrite Ht. clear Ht.
    induction stream_response as [|c rest IH]; [reflexivity|].
    cbn [map filter concat]. destruct (first_content c) eqn:E; cbn [nonempty].
    + exact IH.
    + cbn [concat]. now rewrite IH.
Qed.

(** X11.  Without streaming [OpenAILlm] yields one response, which always
    has a content with one text; it is complete exactly when the first
    choice has a finish reason that is not empty or there is no choice, and
    a completion without choices gives the empty text with [STOP]. *)
Theorem openai_whole_response (response : OpenAIResponse.ChatCompletion) :
  exists r,
    OpenAIResponse.generate_content response = [r]
    /\ has_content r = true
    /\ (exists t, texts [r] = [t])
    /\ (is_complete r = true <->
        match OpenAIResponse.completion_choices response with
        | choice :: _ =>
            exists s, OpenAIResponse.completion_finish_reason choice = Some s
                      /\ s <> []
        | [] => True
        end)
    /\ (OpenAIResponse.completion_choices response = [] ->
        finish_reason r = Some STOP /\ texts [r] = [[]]).
Proof.
  eexists. split; [reflexivity|]. split; [reflexivity|].
  split; [now eexists|]. split.
  - unfold is_complete, OpenAIResponse._parse_openai_response.
    cbn [finish_reason].
    destruct (OpenAIResponse.completion_choices response) as [|c rest].
    + split; [trivial | reflexivity].
    + destruct (OpenAIResponse.completion_finish_reason c) as [[|x s]|];
        cbn [OpenAILlm._map_finish_reason nonempty negb];
        (split;
         [ intros H;
           first [ discriminate H
                 | eexists; split; [reflexivity | discriminate] ]
         | intros (s' & H & Hs); first [reflexivity | congruence] ]).
  - intros H. unfold OpenAIResponse._parse_openai_response. rewrite H.
    split; reflexivity.
Qed.

(** ** Requests as messages *)

Lemma join_nonempty (sep t : str) (ts : list str) :
  t <> [] -> join sep (t :: ts) <> [].
Proof. destruct t; [contradiction|]. destruct ts; discriminate. Qed.

Lemma text_parts_nonempty (ps : list (option str)) :
  Forall (fun t => t <> []) (text_parts ps).
Proof.
  induction ps as [|[t|] ps IH]; simpl; auto.
  destruct t; simpl; auto. constructor; [discriminate | exact IH].
Qed.

Lemma role_name_cases (r : option str) :
  role_name r = lit "user" \/ role_name r = lit "assistant".
Proof.
  unfold role_name. destruct r as [s|]; [|now right].
  destruct (_ || _); auto.
Qed.

Lemma convert_turns_spec (contents : list Turn) (turns : list json) :
  convert_turns contents = Ok turns ->
  Forall turn_message turns
  /\ map message_role turns
     = map (fun c => Some (JStr (role_name (turn_role c))))
         (filter has_text contents).
Proof.
  revert turns; induction contents as [|c rest IH]; intros turns H; simpl in H.
  - injection H as <-. now split.
  - destruct (turn_parts c) as [ps|] eqn:Ep; [|discriminate].
    destruct (convert_turns rest) as [ms|e]; [|discriminate].
    destruct (IH ms eq_refl) as [H1 H2]. cbn [bind] in H.
    pose proof (text_parts_nonempty ps) as Hne.
    destruct (text_parts ps) as [|t ts] eqn:Et; injection H as <-.
    + assert (Hc : has_text c = false) by (unfold has_text; now rewrite Ep, Et).
      cbn [filter]. rewrite Hc. now split.
    + assert (Hc : has_text c = true) by (unfold has_text; now rewrite Ep, Et).
      cbn [filter]. rewrite Hc. split.
      * constructor; [|exact H1].
        exists (role_name (turn_role c)), (join [nl] (t :: ts)).
        split; [reflexivity|]. split; [|apply role_name_cases].
        apply join_nonempty. now inversion Hne.
      * cbn [map]. rewrite <- H2. reflexivity.
Qed.

(** X12.  The messages of a request are the system message, when the
    instruction is truthy, and then one message for each turn that has a
    text, in order: its role is [user] or [assistant] as the turn's role
    says and its content is a text that is not empty. *)
Theorem messages_are_well_formed
    (system_instruction : option json) (contents : list Turn)
    (messages : list json) :
  convert_messages system_instruction contents = Ok messages ->
  exists turns,
    messages
    = match system_instruction with
      | Some v => if truthy v then [message (lit "system") v] else []
      | None => []
      end ++ turns
    /\ Forall turn_message turns
    /\ map message_role turns
       = map (fun c => Some (JStr (role_name (turn_role c))))
           (filter has_text contents).
Proof.
  unfold convert_messages. intros H.
  destruct (convert_turns contents) as [turns|e] eqn:E; [|discriminate].
  injection H as <-. exists turns. split; [reflexivity|].
  now apply convert_turns_spec.
Qed.

Lemma messages_are_well_formed_witness :
  let contents :=
    [ {| turn_role := Some (lit "user");
         turn_parts := Some [Some (lit "Hello"); None; Some (lit "there")] |};
      {| turn_role := Some (lit "model"); turn_parts := Some [Some []] |};
      {| turn_role := None; turn_parts := Some [Some (lit "Hi")] |} ] in
  let messages :=
    [ message (lit "system") (JStr (lit "Be kind"));
      message (lit "user") (JStr (lit "Hello" ++ [nl] ++ lit "there"));
      message (lit "assistant") (JStr (lit "Hi")) ] in
  convert_messages (Some (JStr (lit "Be kind"))) contents = Ok messages
  /\ exists turns,
       messages = [message (lit "system") (JStr (lit "Be kind"))] ++ turns
       /\ Forall turn_message turns.
Proof.
  intros contents messages.
  assert (H : convert_messages (Some (JStr (lit "Be kind"))) contents
              = Ok messages) by reflexivity.
  split; [exact H|].
  destruct (messages_are_well_formed _ _ _ H) as (turns & H1 & H2 & _).
  exists turns. now split.
Defined.

(** X13.  The conversion returns exactly when every turn has a list of
    parts; a turn whose [parts] is [None] makes it raise. *)
Theorem messages_raise_on_missing_parts
    (system_instruction : option json) (contents : list Turn) :
  (exists messages, convert_messages system_instruction contents = Ok messages)
  <-> Forall (fun c => turn_parts c <> None) contents.
Proof.
  unfold convert_messages. split.
  - intros [messages H].
    destruct (convert_turns contents) as [turns|e] eqn:E; [clear H|discriminate].
    revert turns E. induction contents as [|c rest IH]; intros turns E;
      [constructor|]. simpl in E.
    destruct (turn_parts c) eqn:Ep; [|discriminate].
    destruct (convert_turns rest) as [ms|e]; [|discriminate].
    constructor; [congruence | now apply (IH ms)].
  - intros H.
    assert (exists turns, convert_turns contents = Ok turns) as [turns ->].
    { induction H as [|c rest Hc _ [ms IH]]; [now eexists|]. simpl.
      destruct (turn_parts c); [|contradiction]. rewrite IH. now eexists. }
    now eexists.
Qed.

(** ** [agent_stream_generator] *)

Section Stream.
Import AgentStream.
Variable session_id : str.

Lemma streamed_texts_app (a b : list (json * str)) :
  streamed_texts (a ++ b) = streamed_texts a ++ streamed_texts b.
Proof. unfold streamed_texts. now rewrite flat_map_app. Qed.

Lemma parts_loop_spec (parts_ : list EventPart) (full : str) :
  let '(frames, full') := parts_loop session_id parts_ full in
  Forall is_message frames /\ full' = full ++ concat (streamed_texts frames).
Proof.
  revert full; induction parts_ as [|p rest IH]; intros full; simpl.
  - split; [constructor | now rewrite app_nil_r].
  - destruct (part_text p) as [|[t|]]; try apply IH.
    destruct (nonempty t) eqn:Et; [|apply IH].
    specialize (IH (full ++ t)).
    destruct (parts_loop session_id rest (full ++ t)) as [frames full'].
    destruct IH as [H1 H2]. split; [constructor; [reflexivity | exact H1]|].
    rewrite H2. cbn. now rewrite <- app_assoc.
Qed.

Lemma events_loop_spec (events : list Event) (failure : option str) (full : str) :
  let '(frames, full', e) := events_loop session_id events failure full in
  exists msgs tail,
    frames = msgs ++ tail
    /\ Forall is_message msgs
    /\ full' = full ++ concat (streamed_texts msgs)
    /\ match e with
       | Broke => exists t, tail = [(complete_data session_id t full', lit "complete")]
       | _ => tail = []
       end.
Proof.
  revert full; induction events as [|ev rest IH]; intros full.
  - simpl. destruct failure; exists [], []; repeat split; auto;
      now rewrite app_nil_r.
  - cbn [events_loop].
    assert (Hother :
      let '(frames, full', e) :=
        match agent_response ev with
        | Has (Some r) =>
            match response_text r with
            | Has t =>
                ([(complete_data session_id t full, lit "complete")], full, Broke)
            | Missing => events_loop session_id rest failure full
            end
        | _ => events_loop session_id rest failure full
        end in
      exists msgs tail,
        frames = msgs ++ tail
        /\ Forall is_message msgs
        /\ full' = full ++ concat (streamed_texts msgs)
        /\ match e with
           | Broke => exists t, tail = [(complete_data session_id t full', lit "complete")]
           | _ => tail = []
           end).
    { destruct (agent_response ev) as [|[r|]]; try apply IH.
      destruct (response_text r) as [|t]; [apply IH|].
      exists [], [(complete_data session_id t full, lit "complete")].
      repeat split; auto; [now rewrite app_nil_r | now eexists]. }
    destruct (event_content ev) as [|[c|]]; [exact Hother| |].
    + destruct (content_parts c) as [[|p ps]|]; try exact Hother.
      pose proof (parts_loop_spec (p :: ps) full) as Hp.
      destruct (parts_loop session_id (p :: ps) full) as [f1 full1].
      destruct Hp as [Hm1 Hf1]. specialize (IH full1).
      destruct (events_loop session_id rest failure full1) as [[f2 full2] e].
      destruct IH as (msgs & tail & -> & Hm2 & Hf2 & He).
      exists (f1 ++ msgs), tail. rewrite app_assoc. repeat split; auto.
      * now apply Forall_app.
      * rewrite Hf2, Hf1, streamed_texts_app, concat_app. now rewrite app_assoc.
    + exists [], []. repeat split; auto. now rewrite app_nil_r.
Qed.

(** X14.  The frames of a run are frames of type [message] and then the
    closing frames: one [error] frame, or one [complete] frame, or the
    [complete] frame of the agent's response and one more.  The field
    [full_response] of a closing frame is the concatenation of the texts
    streamed in the [message] frames, and the last [complete] frame shows
    that text, or the default response when nothing was streamed. *)
Theorem agent_stream_ends_with_the_streamed_text
    (events : list Event) (failure : option str) :
  let frames := agent_stream_events session_id events failure in
  let full := concat (streamed_texts frames) in
  let shown := if nonempty full then full else default_response in
  let final := (complete_data session_id (JStr shown) shown, lit "complete") in
  exists msgs terminal,
    frames = msgs ++ terminal
    /\ Forall is_message msgs
    /\ ((exists m, terminal = [(error_data session_id m full, lit "error")])
        \/ terminal = [final]
        \/ (exists t, terminal
                      = [(complete_data session_id t full, lit "complete"); final])).
Proof.
  cbv zeta. unfold agent_stream_events.
  pose proof (events_loop_spec events failure []) as H.
  destruct (events_loop session_id events failure []) as [[fs full] e].
  destruct H as (msgs & tail & -> & Hm & Hf & He). cbn [app] in Hf.
  assert (Hst : forall x, (snd x <> lit "message") ->
                streamed_texts ((msgs ++ tail) ++ [x]) = streamed_texts (msgs ++ tail)).
  { intros x Hx. rewrite streamed_texts_app. unfold streamed_texts at 2.
    cbn [flat_map]. destruct (Py.eqb (snd x) (lit "message")) eqn:E;
      [apply eqb_eq in E; contradiction | now rewrite !app_nil_r]. }
  assert (Htail : streamed_texts (msgs ++ tail) = streamed_texts msgs).
  { rewrite streamed_texts_app. destruct e; try (subst tail; now rewrite app_nil_r).
    destruct He as [t ->]. cbn. now rewrite app_nil_r. }
  destruct e as [| |m].
  - subst tail. rewrite app_nil_r in *.
    destruct (nonempty full) eqn:En.
    + exists msgs. eexists. split; [reflexivity|]. split; [exact Hm|].
      right; left. rewrite Hst by discriminate. rewrite <- Hf, En. reflexivity.
    + exists msgs. eexists. split; [reflexivity|]. split; [exact Hm|].
      right; left. rewrite Hst by discriminate. rewrite <- Hf, En. reflexivity.
  - destruct He as [t ->].
    destruct (nonempty full) eqn:En.
    + exists msgs. eexists. rewrite <- app_assoc. split; [reflexivity|].
      split; [exact Hm|]. right; right. exists t.
      rewrite app_assoc, Hst, Htail, <- Hf, En by discriminate. reflexivity.
    + exists msgs. eexists. rewrite <- app_assoc. split; [reflexivity|].
      split; [exact Hm|]. right; right. exists t.
      rewrite app_assoc, Hst, Htail, <- Hf, En by discriminate. reflexivity.
  - subst tail. rewrite app_nil_r in *.
    exists msgs. eexists. split; [reflexivity|]. split; [exact Hm|].
    left. exists m. rewrite Hst by discriminate. now rewrite <- Hf.
Qed.

End Stream.

(** ** [EnglishLearningAgent.update_context] *)

(** X15.  After any number of updates the level is [intermediate] when one
    of the responses was longer than 50 characters and is what it was
    otherwise; the other fields of the context are never changed. *)
Theorem student_level_only_rises (responses : list str) (context : Agent.Context) :
  let final := fold_left Agent.update_context responses context in
  Agent.student_level final
  = (if existsb (fun r => (50 <? length r)%nat) responses
     then lit "intermediate" else Agent.student_level context)
  /\ Agent.topics_covered final = Agent.topics_covered context
  /\ Agent.grammar_points final = Agent.grammar_points context
  /\ Agent.vocabulary_learned final = Agent.vocabulary_learned context.
Proof.
  cbv zeta. revert context; induction responses as [|r rest IH]; intros context.
  - now repeat split.
  - cbn [fold_left existsb]. destruct (IH (Agent.update_context context r))
      as (H1 & H2 & H3 & H4).
    rewrite H1, H2, H3, H4. unfold Agent.update_context.
    destruct (50 <? length r)%nat; cbn [orb Agent.student_level
      Agent.topics_covered Agent.grammar_points Agent.vocabulary_learned];
      repeat split.
    now destruct (existsb (fun r0 => (50 <? length r0)%nat) rest).
Qed.

(** ** The sanitizer's loop over the lines *)

Section Mono.
Import Re.
Context {X : Type} (ic : bool).

Lemma greedy_mono step : @mono_step X step ->
  forall n, @mono_step X (fun s cap k => greedy step k n s cap).
Proof.
  intros Hs n. induction n as [|n IH]; intros s cap k1 k2 Hk H; simpl in *.
  - now apply Hk.
  - set (K1 := fun s' cap' => if (length s' <? length s)%nat
                              then greedy step k1 n s' cap' else None) in *.
    set (K2 := fun s' cap' => if (length s' <? length s)%nat
                              then greedy step k2 n s' cap' else None).
    assert (HK : step s cap K1 <> None -> step s cap K2 <> None).
    { apply Hs. intros s' c. unfold K1, K2.
      destruct (length s' <? length s)%nat; [|auto]. now apply IH. }
    unfold K1, K2 in HK. clear K1 K2.
    match goal with
    | |- match ?a with _ => _ end <> None => destruct a eqn:E2
    end; [discriminate|].
    match type of H with
    | match ?a with _ => _ end <> None => destruct a eqn:E1
    end.
    + exfalso. refine (HK _ E2). intro F.
      pose proof (eq_trans (eq_sym E1) F) as C. discriminate C.
    + now apply Hk.
Qed.

Lemma lazy_mono step : @mono_step X step ->
  forall n, @mono_step X (fun s cap k => lazy step k n s cap).
Proof.
  intros Hs n. induction n as [|n IH]; intros s cap k1 k2 Hk H; simpl in *.
  - now apply Hk.
  - destruct (k2 s cap) eqn:E2; [simpl; discriminate|].
    destruct (k1 s cap) eqn:E1.
    + exfalso. apply (Hk s cap); [now rewrite E1 | exact E2].
    + revert H. apply Hs. intros s' c.
      destruct (length s' <? length s)%nat; [|auto]. now apply IH.
Qed.

Lemma run_mono (r : re) : @mono_step X (run ic r).
Proof.
  induction r; intros s cap k1 k2 Hk H; simpl in *.
  - now apply Hk.
  - destruct s as [|d t]; [assumption|]. destruct (chr_match ic c d); auto.
  - destruct s as [|d t]; [assumption|]. destruct (isspace d); auto.
  - destruct s as [|d t]; auto.
  - revert H. apply IHr1. intros s' c. now apply IHr2.
  - pose proof (IHr s cap k1 k2 Hk) as HK.
    destruct (run ic r s cap k2) eqn:E2; [simpl; discriminate|].
    destruct (run ic r s cap k1) eqn:E1.
    + exfalso. apply HK; [discriminate | reflexivity].
    + now apply Hk.
  - revert H. now apply (greedy_mono _ IHr (length s)).
  - revert H. now apply (lazy_mono _ IHr (length s)).
  - revert H. apply IHr. intros s' c. now apply Hk.
  - destruct s as [|c [|c' t]]; auto. destruct (c =? nl)%N; auto.
Qed.

Lemma seq_mono (a b b' : re) :
  (forall s cap (k : str -> option str -> option X),
      run ic b s cap k <> None -> run ic b' s cap k <> None) ->
  forall s cap (k : str -> option str -> option X),
    run ic (Seq a b) s cap k <> None -> run ic (Seq a b') s cap k <> None.
Proof.
  intros Hb s cap k.
  change (run ic a s cap (fun s' c => run ic b s' c k) <> None ->
          run ic a s cap (fun s' c => run ic b' s' c k) <> None).
  apply run_mono. intros s' c. apply Hb.
Qed.

Lemma opt_succeeds (a b : re) (s : str) (cap : option str)
    (k : str -> option str -> option X) :
  run ic b s cap k <> None -> run ic (Seq (Opt a) b) s cap k <> None.
Proof.
  intros H.
  change (match run ic a s cap (fun s' c => run ic b s' c k) with
          | Some x => Some x
          | None => run ic b s cap k
          end <> None).
  destruct (run ic a s cap _); [discriminate | exact H].
Qed.

End Mono.

Section Fences.
Import Re Sanitizer.

Lemma end_is_start (line : str) :
  matches false code_block_end line = true ->
  matches false code_block_start line = true.
Proof.
  unfold matches, match_. intros H.
  match goal with
  | |- match ?a with _ => _ end = true =>
      assert (N : a <> None); [|destruct a; [reflexivity | now elim N]]
  end.
  match type of H with
  | match ?a with _ => _ end = true =>
      assert (M : a <> None) by (destruct a; [discriminate | discriminate H]);
      clear H; revert M
  end.
  unfold code_block_end, code_block_start. cbn [seq].
  apply (seq_mono false). intros s cap k.
  apply (seq_mono false). clear s cap k. intros s cap k.
  apply (opt_succeeds false).
Qed.

(** X16.  The flag [in_code_block] has no effect on what the loop keeps: it
    drops the lines that match [code_block_start], which every line that
    matches [code_block_end] does, and keeps every other line, inside a
    block or outside. *)
Theorem fence_state_has_no_effect (in_code_block : bool) (lines : list str) :
  filter_lines in_code_block lines
  = filter (fun line => negb (matches false code_block_start line)) lines.
Proof.
  revert in_code_block; induction lines as [|line rest IH]; intros b;
    [reflexivity|]. cbn [filter_lines filter].
  destruct (matches false code_block_start line) eqn:Es; cbn [negb];
    [apply IH|].
  destruct (matches false code_block_end line) eqn:Ee.
  - apply end_is_start in Ee. congruence.
  - rewrite andb_false_r. destruct b; cbn [negb]; now rewrite IH.
Qed.

(** X17.  What the sanitizer returns has no white space at its ends:
    stripping it again changes nothing. *)
Theorem sanitized_text_is_stripped (text : str) :
  strip (_clean_markdown_json text) = _clean_markdown_json text.
Proof.
  unfold _clean_markdown_json.
  destruct (nonempty text); cbn [negb]; [|reflexivity].
  destruct (nonempty (strip (join [nl] _))); cbn [negb];
    [apply strip_idem|].
  destruct (findall_first _ _ _); apply strip_idem.
Qed.

End Fences.

(** ** The frames of [generate_sse_event] *)

Lemma split_line (l r : str) :
  existsb (fun c => N.eqb c nl) l = false ->
  split nl (l ++ nl :: r) = l :: split nl r.
Proof.
  intros H. induction l as [|c l IH]; simpl in *.
  - reflexivity.
  - apply orb_false_iff in H as [H1 H2]. rewrite H1, (IH H2). reflexivity.
Qed.

Lemma uint_no_newline (d : Decimal.uint) :
  existsb (fun c => N.eqb c nl) (lit (NilEmpty.string_of_uint d)) = false.
Proof. induction d; simpl; auto. Qed.

Lemma nilzero_no_newline (d : Decimal.uint) :
  existsb (fun c => N.eqb c nl) (lit (NilZero.string_of_uint d)) = false.
Proof.
  destruct d; try reflexivity;
    (unfold NilZero.string_of_uint; apply uint_no_newline).
Qed.

Lemma str_of_int_no_newline (n : Z) :
  existsb (fun c => N.eqb c nl) (Main.str_of_int n) = false.
Proof.
  unfold Main.str_of_int, NilZero.string_of_int.
  destruct (Z.to_int n) as [d|d].
  - apply nilzero_no_newline.
  - change (existsb (fun c => N.eqb c nl)
              (45%N :: lit (NilZero.string_of_uint d)) = false).
    cbn [existsb]. rewrite nilzero_no_newline. reflexivity.
Qed.

(** X18.  A frame whose event type and payload hold no newline is five
    lines: the id, the event type, the data, and two empty ones; so the
    three fields can be read back from it. *)
Theorem frame_splits_into_its_fields (id : Z) (event_type dumped : str) :
  existsb (fun c => N.eqb c nl) event_type = false ->
  existsb (fun c => N.eqb c nl) dumped = false ->
  split nl (Main.frame id event_type dumped)
  = [lit "id: " ++ Main.str_of_int id; lit "event: " ++ event_type;
     lit "data: " ++ dumped; []; []].
Proof.
  intros Ht Hd. unfold Main.frame.
  assert (E : lit "id: " ++ Main.str_of_int id ++ [nl] ++
              lit "event: " ++ event_type ++ [nl] ++
              lit "data: " ++ dumped ++ [nl; nl]
            = (lit "id: " ++ Main.str_of_int id) ++ nl ::
              ((lit "event: " ++ event_type) ++ nl ::
               ((lit "data: " ++ dumped) ++ nl :: [nl])))
    by (rewrite <- !app_assoc; reflexivity).
  rewrite E. clear E.
  rewrite !split_line; [reflexivity | | |];
    rewrite existsb_app; apply orb_false_iff; split;
    first [ assumption | apply str_of_int_no_newline | reflexivity ].
Qed.

Lemma frame_splits_into_its_fields_witness :
  split nl (Main.frame 7 (lit "message") (lit "{}"))
  = [lit "id: 7"; lit "event: message"; lit "data: {}"; []; []].
Proof.
  exact (frame_splits_into_its_fields 7 (lit "message") (lit "{}")
           eq_refl eq_refl).
Defined.
